(** * Cauchy-matrix Reed-Solomon erasure coding over GF(2^8)

    A shallow embedding of [include/GaloisField.h] (class [gf256_ctx]) and of
    the Reed-Solomon header (classes [ReedSolomonEncoder] and
    [ReedSolomonDecoder]), with the properties stated about them.

    Conventions.  A [uint8_t] is a [byte] of the standard library (the 256
    values [x00 .. xff]); [Z_of_byte] is its integer promotion and
    [byte_of_Z] the cast [(uint8_t) e].  An [int] or [unsigned] is a [Z].
    An array [T[n]] is a list of length [n]; reading [T[i]] is [nth] at
    [Z.to_nat i].  A byte buffer ([void*] with a byte count) is a
    [list byte]. *)

From Stdlib Require Import ZArith List Lia Bool Permutation Finite.
From Stdlib Require Import Ring Field.
From Stdlib Require Import Init.Byte.
From Stdlib Require Strings.Byte.
Import ListNotations.
Local Open Scope Z_scope.

(** ** Bytes, arrays and loops *)

(** Integer promotion of a [uint8_t]. *)
Definition Z_of_byte (b : byte) : Z := Z.of_N (Byte.to_N b).

(** The cast [(uint8_t) z]: [z] modulo 256. *)
Definition byte_of_Z (z : Z) : byte :=
  match Byte.of_N (Z.to_N (z mod 256)) with
  | Some b => b
  | None => x00
  end.

(** [T[i]] for a [uint8_t] array and for a [uint16_t] array. *)
Definition tabb (T : list byte) (i : Z) : byte := nth (Z.to_nat i) T x00.
Definition tab (T : list Z) (i : Z) : Z := nth (Z.to_nat i) T 0.

(** The integers [0 .. n-1], the range of [for (i = 0; i < n; ++i)]. *)
Definition zrange (n : nat) : list Z := map Z.of_nat (seq 0 n).

(** [l] with position [i] replaced by [v]; nothing happens out of range. *)
Fixpoint upd {A : Type} (l : list A) (i : nat) (v : A) : list A :=
  match l, i with
  | [], _ => []
  | _ :: l', O => v :: l'
  | a :: l', S i' => a :: upd l' i' v
  end.

(** ** GaloisField.h *)

Module GF256.

(** The tables of [class gf256_ctx].  The SIMD shuffle tables [MM128] and
    [MM256] are read only by the vectorised bulk kernels and are left out. *)
Record gf256_ctx : Type := {
  GF256_MUL_TABLE : list byte;   (* uint8_t [256 * 256] *)
  GF256_DIV_TABLE : list byte;   (* uint8_t [256 * 256] *)
  GF256_INV_TABLE : list byte;   (* uint8_t [256] *)
  GF256_SQR_TABLE : list byte;   (* uint8_t [256] *)
  GF256_LOG_TABLE : list Z;      (* uint16_t [256] *)
  GF256_EXP_TABLE : list byte;   (* uint8_t [512 * 2 + 1] *)
  Polynomial : Z                 (* unsigned *)
}.

(** The array bounds declared in the class. *)
Record ctx_shape (ctx : gf256_ctx) : Prop := {
  shape_mul : length (GF256_MUL_TABLE ctx) = (256 * 256)%nat;
  shape_div : length (GF256_DIV_TABLE ctx) = (256 * 256)%nat;
  shape_inv : length (GF256_INV_TABLE ctx) = 256%nat;
  shape_sqr : length (GF256_SQR_TABLE ctx) = 256%nat;
  shape_log : length (GF256_LOG_TABLE ctx) = 256%nat;
  shape_exp : length (GF256_EXP_TABLE ctx) = (512 * 2 + 1)%nat
}.

(** [((unsigned)y << 8) + x], in 32-bit unsigned arithmetic. *)
Definition table_index (x y : byte) : Z :=
  (Z.shiftl (Z_of_byte y) 8 + Z_of_byte x) mod 2 ^ 32.

(** [gf256_add]: [return (uint8_t)(x ^ y);] *)
Definition gf256_add (x y : byte) : byte :=
  byte_of_Z (Z.lxor (Z_of_byte x) (Z_of_byte y)).

(** [gf256_mul]: [return GF256_MUL_TABLE[((unsigned)y << 8) + x];] *)
Definition gf256_mul (ctx : gf256_ctx) (x y : byte) : byte :=
  tabb (GF256_MUL_TABLE ctx) (table_index x y).

(** [gf256_div]: [return GF256_DIV_TABLE[((unsigned)y << 8) + x];] *)
Definition gf256_div (ctx : gf256_ctx) (x y : byte) : byte :=
  tabb (GF256_DIV_TABLE ctx) (table_index x y).

(** [gf256_inv]: [return GF256_INV_TABLE[x];] *)
Definition gf256_inv (ctx : gf256_ctx) (x : byte) : byte :=
  tabb (GF256_INV_TABLE ctx) (Z_of_byte x).

(** [gf256_sqr]: [return GF256_SQR_TABLE[x];] *)
Definition gf256_sqr (ctx : gf256_ctx) (x : byte) : byte :=
  tabb (GF256_SQR_TABLE ctx) (Z_of_byte x).

(** *** Table initialisation (gf256.cpp, not part of the headers) *)

(** Modelled from the spec: the polynomial chosen by [gf256_poly_init]
    (declared in the header, defined in gf256.cpp), "numerically 0x11D". *)
Definition default_polynomial : Z := 0x11D.

(** Modelled from the spec: one step of "iterating the primitive element
    under p(x)" in [gf256_explog_init]: multiply by x and reduce. *)
Definition next_power (poly v : Z) : Z :=
  let n := 2 * v in if 256 <=? n then Z.lxor n poly else n.

(** The powers [cur, cur*g, ..., cur*g^(n-1)] of the primitive element. *)
Fixpoint powers (poly : Z) (n : nat) (cur : Z) : list Z :=
  match n with
  | O => []
  | S n' => cur :: powers poly n' (next_power poly cur)
  end.

(** Modelled from the spec: the EXP table of [gf256_explog_init],
    "512*2+1 bytes: discrete-log exponent, doubled and extended to avoid
    modulo on lookup".  The 255 powers are laid out twice, followed by
    [g^510 = 1]; the rest is zero, so that an index built from the LOG
    sentinel of 0 reads 0. *)
Definition exp_table (poly : Z) : list byte :=
  let p := powers poly 255 1 in
  map byte_of_Z (p ++ p ++ [1] ++ repeat 0 514).

(** The position of [x] in [l]: its discrete log when [l] is the powers. *)
Fixpoint index_of (x : Z) (l : list Z) : Z :=
  match l with
  | [] => 0
  | y :: l' => if x =? y then 0 else 1 + index_of x l'
  end.

(** Modelled from the spec: the LOG table of [gf256_explog_init],
    "256 u16: discrete log; LOG[0] is a sentinel" (512, which sends every
    product with 0 into the zero part of EXP). *)
Definition log_table (poly : Z) : list Z :=
  let p := powers poly 255 1 in
  map (fun x => if x =? 0 then 512 else index_of x p) (zrange 256).

(** Modelled from the spec: [gf256_muldiv_init], "MUL, DIV via LOG/EXP",
    with [MUL[(y<<8)+x] = x*y]. *)
Definition mul_table (logt : list Z) (expt : list byte) : list byte :=
  flat_map (fun y => map (fun x => tabb expt (tab logt x + tab logt y))
                         (zrange 256))
           (zrange 256).

(** Modelled from the spec: [gf256_muldiv_init], [DIV[(y<<8)+x] = x/y] for
    [y <> 0]; the row of [y = 0], which the spec leaves open, is zero. *)
Definition div_table (logt : list Z) (expt : list byte) : list byte :=
  flat_map (fun y => map (fun x =>
                            if y =? 0 then x00
                            else tabb expt (tab logt x + 255 - tab logt y))
                         (zrange 256))
           (zrange 256).

(** Modelled from the spec: [gf256_inv_init], "INV (special-case 0 -> 0)":
    the multiplicative inverse [1/x], read from the DIV table. *)
Definition inv_table (divt : list byte) : list byte :=
  map (fun x => if x =? 0 then x00 else tabb divt (Z.shiftl x 8 + 1))
      (zrange 256).

(** Modelled from the spec: [gf256_sqr_init], [SQR[x] = x*x]. *)
Definition sqr_table (mult : list byte) : list byte :=
  map (fun x => tabb mult (Z.shiftl x 8 + x)) (zrange 256).

(** Modelled from the spec: [gf256_init], which fills the tables in the
    order polynomial, EXP/LOG, MUL/DIV, INV, SQR. *)
Definition gf256_init : gf256_ctx :=
  let poly := default_polynomial in
  let expt := exp_table poly in
  let logt := log_table poly in
  let mult := mul_table logt expt in
  let divt := div_table logt expt in
  {| GF256_MUL_TABLE := mult;
     GF256_DIV_TABLE := divt;
     GF256_INV_TABLE := inv_table divt;
     GF256_SQR_TABLE := sqr_table mult;
     GF256_LOG_TABLE := logt;
     GF256_EXP_TABLE := expt;
     Polynomial := poly |}.

(** [getGF256Ctx]: the process-wide context, built once by [gf256_init]
    (the private constructor calls it). *)
Definition getGF256Ctx : gf256_ctx := gf256_init.

(** *** Bulk memory operations *)

(** The loop shared by the bulk operations: [z[i] = f(z[i], x[i])] for the
    first [n] bytes.  The buffers hold at least [n] bytes in every call of
    the library; the loop stops at the end of a shorter one. *)
Fixpoint mem_loop (f : byte -> byte -> byte) (n : nat) (vz vx : list byte)
  : list byte :=
  match n, vz, vx with
  | S n', z :: vz', x :: vx' => f z x :: mem_loop f n' vz' vx'
  | _, _, _ => vz
  end.

(** [memcpy(vz, vx, bytes)]. *)
Definition memcpy (vz vx : list byte) (bytes : Z) : list byte :=
  mem_loop (fun _ x => x) (Z.to_nat bytes) vz vx.

(** Modelled from the spec: [gf256_add_mem] (declared in the header, defined
    in gf256.cpp), "x[i] ^= y[i] for all i". *)
Definition gf256_add_mem (vx vy : list byte) (bytes : Z) : list byte :=
  mem_loop gf256_add (Z.to_nat bytes) vx vy.

(** Modelled from the spec: [gf256_mul_mem] (declared in the header, defined
    in gf256.cpp), "z[i] = x[i] * y (y is a scalar)". *)
Definition gf256_mul_mem (ctx : gf256_ctx) (vz vx : list byte) (y : byte)
           (bytes : Z) : list byte :=
  mem_loop (fun _ x => gf256_mul ctx x y) (Z.to_nat bytes) vz vx.

(** Modelled from the spec: [gf256_muladd_mem] (declared in the header,
    defined in gf256.cpp), "z[i] ^= x[i] * y". *)
Definition gf256_muladd_mem (ctx : gf256_ctx) (vz : list byte) (y : byte)
           (vx : list byte) (bytes : Z) : list byte :=
  mem_loop (fun z x => gf256_add z (gf256_mul ctx x y)) (Z.to_nat bytes) vz vx.

(** The loop of the bulk operations with two sources:
    [z[i] = f(z[i], x[i], y[i])] for the first [n] bytes. *)
Fixpoint mem_loop2 (f : byte -> byte -> byte -> byte) (n : nat)
         (vz vx vy : list byte) : list byte :=
  match n, vz, vx, vy with
  | S n', z :: vz', x :: vx', y :: vy' =>
      f z x y :: mem_loop2 f n' vz' vx' vy'
  | _, _, _, _ => vz
  end.

(** Modelled from the spec: [gf256_add2_mem] (declared in the header, defined
    in gf256.cpp), "z[i] ^= x[i] ^ y[i]". *)
Definition gf256_add2_mem (vz vx vy : list byte) (bytes : Z) : list byte :=
  mem_loop2 (fun z x y => gf256_add z (gf256_add x y)) (Z.to_nat bytes)
            vz vx vy.

(** Modelled from the spec: [gf256_addset_mem] (declared in the header,
    defined in gf256.cpp), "z[i] = x[i] ^ y[i]". *)
Definition gf256_addset_mem (vz vx vy : list byte) (bytes : Z) : list byte :=
  mem_loop2 (fun _ x y => gf256_add x y) (Z.to_nat bytes) vz vx vy.

(** [gf256_div_mem]:
    [gf256_mul_mem(vz, vx, y == 1 ? (uint8_t)1 : GF256_INV_TABLE[y], bytes);] *)
Definition gf256_div_mem (ctx : gf256_ctx) (vz vx : list byte) (y : byte)
           (bytes : Z) : list byte :=
  gf256_mul_mem ctx vz vx
    (if Z_of_byte y =? 1 then byte_of_Z 1
     else tabb (GF256_INV_TABLE ctx) (Z_of_byte y))
    bytes.

End GF256.

(** ** The Reed-Solomon header *)

Import GF256.

(** [struct EncoderParams]: three [int]s. *)
Record EncoderParams : Type := {
  OriginalCount : Z;
  RecoveryCount : Z;
  BlockBytes : Z
}.

(** [struct DataBlock]: the buffer behind [void* Block] and the
    [unsigned char Index]. *)
Record DataBlock : Type := {
  Block : list byte;
  Index : byte
}.

(** The [int] returned by [Encode] and [Decode]: 0 is [Ok], the other
    codes are the error kinds of the spec. *)
Inductive status : Type := Ok | ParameterError | InternalError.

(** [blocks[p]]. *)
Definition block_at (blocks : list DataBlock) (p : nat) : DataBlock :=
  nth p blocks {| Block := []; Index := x00 |}.

(** The [Index] of a block as an [int]. *)
Definition block_index (b : DataBlock) : Z := Z_of_byte (Index b).

(** [GetOriginalBlockIndex]; [None] is the failed [assert]. *)
Definition GetOriginalBlockIndex (params : EncoderParams)
           (originalBlockIndex : Z) : option byte :=
  if (0 <=? originalBlockIndex) && (originalBlockIndex <? OriginalCount params)
  then Some (byte_of_Z originalBlockIndex)
  else None.

(** [GetRecoveryBlockIndex]; [None] is the failed [assert]. *)
Definition GetRecoveryBlockIndex (params : EncoderParams)
           (recoveryBlockIndex : Z) : option byte :=
  if (0 <=? recoveryBlockIndex) && (recoveryBlockIndex <? RecoveryCount params)
  then Some (byte_of_Z (OriginalCount params + recoveryBlockIndex))
  else None.

(** Modelled from the spec: the parameter check of [Encode] and [Decode]
    (defined in cm256.cpp), "original_count >= 1, recovery_count >= 1,
    original_count + recovery_count <= 256, block_bytes > 0". *)
Definition params_ok (params : EncoderParams) : bool :=
  (1 <=? OriginalCount params) && (1 <=? RecoveryCount params)
  && (OriginalCount params + RecoveryCount params <=? 256)
  && (0 <? BlockBytes params).

(** [class ReedSolomonDecoder].  The pointers [Recovery[i]] and
    [Original[i]] point into the caller's array and are kept as positions
    in it; [RecoveryCount] and [OriginalCount] are the lengths of the two
    lists. *)
Record ReedSolomonDecoder : Type := {
  Params : EncoderParams;
  Recovery : list nat;
  Original : list nat;
  ErasuresIndices : list Z
}.

(** No value occurs twice. *)
Fixpoint distinct (l : list Z) : bool :=
  match l with
  | [] => true
  | a :: l' => negb (existsb (Z.eqb a) l') && distinct l'
  end.

(** Modelled from the spec: [ReedSolomonDecoder::Initialize] (declared in the
    header, defined in cm256.cpp).  "Partition: walk the input list;
    classify each entry by index into surviving original or recovery.
    Record an erasure list E = sorted set of original positions not
    present.  If E is empty, return ok immediately.  It is a precondition
    that |E| equals the number of recoveries supplied"; a wrong number of
    blocks, an index out of range and a duplicate index fail as well. *)
Definition Initialize (params : EncoderParams) (blocks : list DataBlock)
  : bool * ReedSolomonDecoder :=
  let k := OriginalCount params in
  let r := RecoveryCount params in
  let rows := map block_index blocks in
  let positions := seq 0 (length blocks) in
  let st :=
    {| Params := params;
       Recovery := filter (fun p => k <=? block_index (block_at blocks p))
                          positions;
       Original := filter (fun p => block_index (block_at blocks p) <? k)
                          positions;
       ErasuresIndices :=
         filter (fun j => negb (existsb (Z.eqb j) rows))
                (zrange (Z.to_nat k)) |} in
  if negb (Z.of_nat (length blocks) =? k) then (false, st)
  else if existsb (fun row => k + r <=? row) rows then (false, st)
  else if negb (distinct rows) then (false, st)
  else match ErasuresIndices st with
       | [] => (true, st)
       | _ => (Z.of_nat (length (ErasuresIndices st))
               =? Z.of_nat (length (Recovery st)), st)
       end.

(** Entry [(i, j)] of a matrix held as a list of rows. *)
Definition mat (M : list (list byte)) (i j : nat) : byte :=
  nth j (nth i M []) x00.

Section Cauchy.

(** The field elements of the Cauchy construction: [X i] for recovery row
    [i] and [Y j] for original [j].  The spec asks only that they are
    "disjoint sets of field elements chosen such that all pairwise XORs are
    non-zero", the same on both ends. *)
Variables X Y : Z -> byte.

Local Abbreviation ctx := getGF256Ctx.

(** Modelled from the spec: the coefficient of original [j] in recovery
    [i], "C[i][j] = 1 / (X_i xor Y_j)", "normalized" so that "row 0 has all
    coefficients equal to 1". *)
Definition GetMatrixElement (i j : Z) : byte :=
  gf256_div ctx (gf256_add (X 0) (Y j)) (gf256_add (X i) (Y j)).

(** Modelled from the spec: [ReedSolomonEncoder::EncodeOneDataBlock]
    (declared in the header, defined in cm256.cpp).  Recovery 0 is "an
    initial copy of O_0 followed by add_mem of each remaining original";
    recovery k >= 1 is "mul_mem(R_k, O_0, C[k][0]), then for each
    subsequent j, muladd_mem(R_k, C[k][j], O_j)".  [recoveryBlockIndex] is
    the value of [GetRecoveryBlockIndex]; original [j] is [originals[j]],
    its [Index] being "ignored during encoding". *)
Definition EncodeOneDataBlock (params : EncoderParams)
           (originals : list DataBlock) (recoveryBlockIndex : Z)
           (recoveryBlock : list byte) : list byte :=
  let bb := BlockBytes params in
  let row := recoveryBlockIndex - OriginalCount params in
  let O := fun j => Block (block_at originals j) in
  let rest := seq 1 (Z.to_nat (OriginalCount params) - 1) in
  if row =? 0 then
    fold_left (fun R j => gf256_add_mem R (O j) bb) rest
              (memcpy recoveryBlock (O 0%nat) bb)
  else
    fold_left (fun R j =>
                 gf256_muladd_mem ctx R (GetMatrixElement row (Z.of_nat j))
                                  (O j) bb)
              rest
              (gf256_mul_mem ctx recoveryBlock (O 0%nat)
                             (GetMatrixElement row 0) bb).

(** Block [i] of [bb] bytes in a buffer of blocks laid end to end. *)
Definition chunk (bb : nat) (buf : list byte) (i : nat) : list byte :=
  firstn bb (skipn (i * bb) buf).

(** Modelled from the spec: [ReedSolomonEncoder::Encode] (declared in the
    header, defined in cm256.cpp).  Invalid parameters are a parameter
    error; otherwise "recovery_out is filled with recovery_count contiguous
    blocks of block_bytes; the k-th recovery corresponds to index
    original_count + k". *)
Definition Encode (params : EncoderParams) (originals : list DataBlock)
           (recoveryBlocks : list byte) : status * list byte :=
  if negb (params_ok params) then (ParameterError, recoveryBlocks)
  else
    let bb := Z.to_nat (BlockBytes params) in
    let r := Z.to_nat (RecoveryCount params) in
    (Ok,
     flat_map (fun i =>
                 EncodeOneDataBlock params originals
                                    (OriginalCount params + Z.of_nat i)
                                    (chunk bb recoveryBlocks i))
              (seq 0 r)
     ++ skipn (r * bb) recoveryBlocks).

(** *** Decoder *)

(** Modelled from the spec: the right-hand side of one supplied recovery,
    "XOR into it the contributions of the surviving originals ... with
    muladd_mem (and add_mem where the coefficient is 1)". *)
Definition SubtractOriginals (params : EncoderParams)
           (origs : list DataBlock) (row : Z) (buf : list byte) : list byte :=
  fold_left
    (fun acc O =>
       let c := GetMatrixElement row (block_index O) in
       if Byte.eqb c x01 then gf256_add_mem acc (Block O) (BlockBytes params)
       else gf256_muladd_mem ctx acc c (Block O) (BlockBytes params))
    origs buf.

(** Modelled from the spec: [ReedSolomonDecoder::DecodeM1] (declared in the
    header, defined in cm256.cpp), the m = 1 fast path:
    "O_e = (1 / C[r][e]) * (R_r xor sum_{j <> e} C[r][j] * O_j)", and for
    r = 0 "O_e = R_0 xor (XOR of all surviving O_j)". *)
Definition DecodeM1 (st : ReedSolomonDecoder) (blocks : list DataBlock)
  : list DataBlock :=
  let params := Params st in
  let bb := BlockBytes params in
  let p := hd 0%nat (Recovery st) in
  let rec := block_at blocks p in
  let e := hd 0 (ErasuresIndices st) in
  let row := block_index rec - OriginalCount params in
  let origs := map (block_at blocks) (Original st) in
  let buf :=
    if row =? 0 then
      fold_left (fun acc O => gf256_add_mem acc (Block O) bb) origs (Block rec)
    else
      let s := fold_left
                 (fun acc O =>
                    gf256_muladd_mem ctx acc
                      (GetMatrixElement row (block_index O)) (Block O) bb)
                 origs (Block rec) in
      gf256_div_mem ctx s s (GetMatrixElement row e) bb in
  upd blocks p {| Block := buf; Index := byte_of_Z e |}.

End Cauchy.

(** Modelled from the spec: the points of the Cauchy construction, "The
    concrete choice: Y_j = j, X_i = recovery_count-1-i+128", as bytes. *)
Definition spec_X (params : EncoderParams) (i : Z) : byte :=
  byte_of_Z (RecoveryCount params - 1 - i + 128).

Definition spec_Y (j : Z) : byte := byte_of_Z j.

(** *** The closed-form Cauchy factorization *)

Section ClosedForm.

(** [x i] is the field element of the [i]-th supplied recovery, [y j] that
    of the [j]-th erasure, and [q j] the normalizing factor of column [j]. *)
Variables x y q : nat -> byte.

Local Abbreviation ctx := getGF256Ctx.

(** The product of [f t] over the list [l]. *)
Definition gf256_prod (l : list nat) (f : nat -> byte) : byte :=
  fold_right (fun t acc => gf256_mul ctx (f t) acc) x01 l.

(** Modelled from the spec: "the standard Cauchy pivot formula over GF(2^8)
    (XOR for subtraction)", for every entry: entry [(i, j)] of the matrix
    left once the first [k] rows and columns are eliminated,
    [q_j * prod_{t<k} (x_i + x_t) * prod_{t<k} (y_j + y_t)
     / ((x_i + y_j) * prod_{t<k} (x_i + y_t) * prod_{t<k} (x_t + y_j))]. *)
Definition Schur (k i j : nat) : byte :=
  let below := seq 0 k in
  gf256_div ctx
    (gf256_mul ctx (q j)
       (gf256_mul ctx (gf256_prod below (fun t => gf256_add (x i) (x t)))
                      (gf256_prod below (fun t => gf256_add (y j) (y t)))))
    (gf256_mul ctx (gf256_add (x i) (y j))
       (gf256_mul ctx (gf256_prod below (fun t => gf256_add (x i) (y t)))
                      (gf256_prod below (fun t => gf256_add (x t) (y j))))).

(** [D[k]], the pivot. *)
Definition Pivot (k : nat) : byte := Schur k k k.

(** [L[i][k]] and [U[k][j]], "ratios of the same pairwise XOR terms". *)
Definition Lower (i k : nat) : byte := gf256_div ctx (Schur k i k) (Pivot k).
Definition Upper (k j : nat) : byte := gf256_div ctx (Schur k k j) (Pivot k).

(** The three outputs [matrix_L], [diag_D] and [matrix_U], for size [m]. *)
Definition LDU (m : nat)
  : list (list byte) * list byte * list (list byte) :=
  let rows := seq 0 m in
  (map (fun i => map (fun k => Lower i k) rows) rows,
   map Pivot rows,
   map (fun k => map (fun j => Upper k j) rows) rows).

End ClosedForm.

(** *** The solver *)

Section Solve.

Local Abbreviation ctx := getGF256Ctx.

Variables (matrix_L : list (list byte)) (diag_D : list byte)
          (matrix_U : list (list byte)).
Variable bb : Z.

(** Modelled from the spec: "Forward-substitute under L: for each row i in
    [0, m), and for each j < i, muladd_mem(b_i, L[i][j], b_j)". *)
Definition ForwardSubstitute (m : nat) (b : list (list byte))
  : list (list byte) :=
  fold_left
    (fun b i =>
       fold_left
         (fun b j =>
            upd b i (gf256_muladd_mem ctx (nth i b []) (mat matrix_L i j)
                                      (nth j b []) bb))
         (seq 0 i) b)
    (seq 0 m) b.

(** Modelled from the spec: "Divide by D: for each i,
    div_mem(b_i, b_i, D[i])". *)
Definition DivideDiagonal (m : nat) (b : list (list byte))
  : list (list byte) :=
  fold_left
    (fun b i =>
       upd b i (gf256_div_mem ctx (nth i b []) (nth i b [])
                              (nth i diag_D x00) bb))
    (seq 0 m) b.

(** Modelled from the spec: "Back-substitute under U: for i from m-1 down
    to 0, and for each j > i, muladd_mem(b_i, U[i][j], b_j)". *)
Definition BackSubstitute (m : nat) (b : list (list byte))
  : list (list byte) :=
  fold_left
    (fun b i =>
       fold_left
         (fun b j =>
            upd b i (gf256_muladd_mem ctx (nth i b []) (mat matrix_U i j)
                                      (nth j b []) bb))
         (seq (S i) (m - S i)) b)
    (rev (seq 0 m)) b.

End Solve.

Section Decoder.

Variables X Y : Z -> byte.

Local Abbreviation ctx := getGF256Ctx.

(** Modelled from the spec: [ReedSolomonDecoder::GenerateLDUDecomposition]
    (declared in the header, defined in cm256.cpp): "A[i][k] = C[r_i][e_k],
    with r_i the indices of the recoveries supplied (in the order they
    appeared) and e_k the erasures in sorted order", factored in closed
    form. *)
Definition GenerateLDUDecomposition (st : ReedSolomonDecoder)
           (blocks : list DataBlock)
  : list (list byte) * list byte * list (list byte) :=
  let k := OriginalCount (Params st) in
  let x := fun i =>
             X (block_index (block_at blocks (nth i (Recovery st) 0%nat)) - k) in
  let y := fun j => Y (nth j (ErasuresIndices st) 0) in
  let q := fun j => gf256_add (X 0) (y j) in
  LDU x y q (length (Recovery st)).

(** The buffers [b] and the indices [idx] stored into the blocks at the
    positions [ps], one after the other. *)
Fixpoint StoreBack (blocks : list DataBlock) (ps : list nat)
         (b : list (list byte)) (idx : list Z) : list DataBlock :=
  match ps, b, idx with
  | p :: ps', buf :: b', e :: idx' =>
      StoreBack (upd blocks p {| Block := buf; Index := byte_of_Z e |})
                ps' b' idx'
  | _, _, _ => blocks
  end.

(** Modelled from the spec: [ReedSolomonDecoder::Decode()], the m > 1 path
    (declared in the header, defined in cm256.cpp): right-hand side
    construction, decomposition, solve, and "update the block's index from
    its recovery index to e_i".  A zero pivot "is reported as an internal
    error". *)
Definition DecodeSolve (st : ReedSolomonDecoder) (blocks : list DataBlock)
  : status * list DataBlock :=
  let params := Params st in
  let m := length (Recovery st) in
  let recs := map (block_at blocks) (Recovery st) in
  let origs := map (block_at blocks) (Original st) in
  let rhs :=
    map (fun rec =>
           SubtractOriginals X Y params origs
             (block_index rec - OriginalCount params) (Block rec))
        recs in
  let '(matrix_L, diag_D, matrix_U) := GenerateLDUDecomposition st blocks in
  if existsb (fun d => Byte.eqb d x00) diag_D then
    (InternalError, StoreBack blocks (Recovery st) rhs (map block_index recs))
  else
    let b1 := ForwardSubstitute matrix_L (BlockBytes params) m rhs in
    let b2 := DivideDiagonal diag_D (BlockBytes params) m b1 in
    let b3 := BackSubstitute matrix_U (BlockBytes params) m b2 in
    (Ok, StoreBack blocks (Recovery st) b3 (ErasuresIndices st)).

(** Modelled from the spec: [ReedSolomonDecoder::Decode(params, blocks)]
    (declared in the header, defined in cm256.cpp): the parameter check,
    the initialization phase, the degenerate case, the m = 1 fast path and
    the m > 1 path.  The second component is the caller's array after the
    call. *)
Definition Decode (params : EncoderParams) (blocks : list DataBlock)
  : status * list DataBlock :=
  if negb (params_ok params) then (ParameterError, blocks)
  else
    let (ok, st) := Initialize params blocks in
    if negb ok then (ParameterError, blocks)
    else match ErasuresIndices st with
         | [] => (Ok, blocks)
         | [_] => (Ok, DecodeM1 X Y st blocks)
         | _ => DecodeSolve st blocks
         end.

End Decoder.

(** * Properties *)

(** ** Bytes *)

Lemma Z_of_byte_range (b : byte) : 0 <= Z_of_byte b < 256.
Proof.
  unfold Z_of_byte. pose proof (Byte.to_N_bounded b). lia.
Qed.

Lemma byte_of_Z_of_byte (b : byte) : byte_of_Z (Z_of_byte b) = b.
Proof.
  unfold byte_of_Z. rewrite Z.mod_small by apply Z_of_byte_range.
  unfold Z_of_byte. rewrite N2Z.id, Byte.of_to_N. reflexivity.
Qed.

Lemma Z_of_byte_of_Z (z : Z) : 0 <= z < 256 -> Z_of_byte (byte_of_Z z) = z.
Proof.
  intros Hz. unfold byte_of_Z. rewrite Z.mod_small by exact Hz.
  destruct (Byte.of_N (Z.to_N z)) as [b|] eqn:E.
  - apply Byte.to_of_N in E. unfold Z_of_byte. rewrite E. lia.
  - apply Byte.of_N_None_iff in E. lia.
Qed.

Lemma Z_of_byte_inj (a b : byte) : Z_of_byte a = Z_of_byte b -> a = b.
Proof.
  intros H. rewrite <- (byte_of_Z_of_byte a), <- (byte_of_Z_of_byte b).
  now rewrite H.
Qed.

Lemma byte_eqb_eq (a b : byte) : Byte.eqb a b = true <-> a = b.
Proof.
  split; [apply Byte.byte_dec_bl | apply Byte.byte_dec_lb].
Qed.

Lemma byte_eqb_neq (a b : byte) : Byte.eqb a b = false <-> a <> b.
Proof.
  split.
  - apply Byte.eqb_false.
  - intros H. destruct (Byte.eqb a b) eqn:E; [|reflexivity].
    apply byte_eqb_eq in E. contradiction.
Qed.

(** ** Loop ranges and arrays *)

Lemma in_zrange (n : nat) (z : Z) : In z (zrange n) <-> 0 <= z < Z.of_nat n.
Proof.
  unfold zrange. rewrite in_map_iff. split.
  - intros (k & <- & Hk). apply in_seq in Hk. lia.
  - intros Hz. exists (Z.to_nat z). split; [lia | apply in_seq; lia].
Qed.

Lemma length_zrange (n : nat) : length (zrange n) = n.
Proof. unfold zrange. now rewrite length_map, length_seq. Qed.

Lemma nth_map_zrange (A : Type) (f : Z -> A) (n : nat) (i : Z) (d : A) :
  0 <= i < Z.of_nat n -> nth (Z.to_nat i) (map f (zrange n)) d = f i.
Proof.
  intros Hi. unfold zrange. rewrite map_map.
  rewrite nth_indep with (d' := f (Z.of_nat 0))
    by (rewrite length_map, length_seq; lia).
  rewrite (map_nth (fun k => f (Z.of_nat k)) (seq 0 n) 0%nat).
  rewrite seq_nth by lia. f_equal. lia.
Qed.

Lemma nth_zrange (n : nat) (i : Z) :
  0 <= i < Z.of_nat n -> nth (Z.to_nat i) (zrange n) 0 = i.
Proof.
  intros Hi. rewrite <- (map_id (zrange n)). now apply nth_map_zrange.
Qed.

(** Every byte is the cast of an integer of the range [0 .. 255]. *)
Definition all_bytes : list byte := map byte_of_Z (zrange 256).

Lemma in_all_bytes (b : byte) : In b all_bytes.
Proof.
  unfold all_bytes. apply in_map_iff. exists (Z_of_byte b). split.
  - apply byte_of_Z_of_byte.
  - apply in_zrange. pose proof (Z_of_byte_range b). lia.
Qed.

(** A closed boolean check, run once when the proof is checked. *)
Ltac by_computation := vm_cast_no_check (@eq_refl bool true).

(** A predicate checked on the 256 bytes holds of every byte. *)
Lemma forall_bytes (P : byte -> bool) :
  forallb P all_bytes = true -> forall x, P x = true.
Proof.
  intros H x. rewrite forallb_forall in H. apply H, in_all_bytes.
Qed.

Lemma forall_bytes2 (P : byte -> byte -> bool) :
  forallb (fun x => forallb (P x) all_bytes) all_bytes = true ->
  forall x y, P x y = true.
Proof.
  intros H x y. apply (forall_bytes (P x)).
  apply (forall_bytes (fun x => forallb (P x) all_bytes)). exact H.
Qed.

(** A table laid out in rows of equal width: entry [j * w + i] is entry [i]
    of row [j]. *)
Lemma nth_flat_rows (A B : Type) (row : A -> list B) (w : nat)
      (rows : list A) (j i : nat) (a : A) (d : B) :
  (forall r, length (row r) = w) ->
  (i < w)%nat -> (j < length rows)%nat ->
  nth (j * w + i) (flat_map row rows) d = nth i (row (nth j rows a)) d.
Proof.
  intros Hw Hi. revert j. induction rows as [|r rows IH]; intros j Hj.
  - simpl in Hj. lia.
  - simpl flat_map. destruct j as [|j].
    + simpl. rewrite app_nth1 by (rewrite Hw; exact Hi). reflexivity.
    + rewrite app_nth2 by (rewrite Hw; simpl; lia).
      replace (S j * w + i - length (row r))%nat with (j * w + i)%nat
        by (rewrite Hw; simpl; lia).
      simpl in Hj. rewrite IH by lia. reflexivity.
Qed.

Lemma length_flat_rows (A B : Type) (row : A -> list B) (w : nat)
      (rows : list A) :
  (forall r, length (row r) = w) ->
  length (flat_map row rows) = (length rows * w)%nat.
Proof.
  intros Hw. induction rows as [|r rows IH]; [reflexivity|].
  simpl. rewrite length_app, Hw, IH. reflexivity.
Qed.

Lemma table_index_eq (x y : byte) :
  GF256.table_index x y = Z_of_byte y * 256 + Z_of_byte x.
Proof.
  unfold GF256.table_index.
  pose proof (Z_of_byte_range x). pose proof (Z_of_byte_range y).
  rewrite Z.shiftl_mul_pow2 by lia.
  change (2 ^ 8) with 256. apply Z.mod_small. lia.
Qed.

(** Reading a 256 x 256 table at [(y << 8) + x]. *)
Lemma tabb_flat_rows (f : Z -> Z -> byte) (x y : Z) :
  0 <= x < 256 -> 0 <= y < 256 ->
  tabb (flat_map (fun y => map (f y) (zrange 256)) (zrange 256)) (y * 256 + x)
  = f y x.
Proof.
  intros Hx Hy. unfold tabb.
  replace (Z.to_nat (y * 256 + x)) with (Z.to_nat y * 256 + Z.to_nat x)%nat
    by lia.
  rewrite nth_flat_rows with (w := 256%nat) (a := 0).
  - rewrite nth_zrange by lia. apply nth_map_zrange. lia.
  - intros r. now rewrite length_map, length_zrange.
  - lia.
  - rewrite length_zrange. lia.
Qed.

(** ** The tables built by [gf256_init] *)

Abbreviation ctx0 := GF256.getGF256Ctx.

Definition EXP : list byte := GF256.exp_table GF256.default_polynomial.
Definition LOG : list Z := GF256.log_table GF256.default_polynomial.

(** The entries of the MUL and DIV tables, by their LOG/EXP formula. *)
Definition mulf (x y : byte) : byte :=
  tabb EXP (tab LOG (Z_of_byte x) + tab LOG (Z_of_byte y)).

Definition divf (x y : byte) : byte :=
  if Z_of_byte y =? 0 then x00
  else tabb EXP (tab LOG (Z_of_byte x) + 255 - tab LOG (Z_of_byte y)).

Lemma gf256_mul_eq (x y : byte) : GF256.gf256_mul ctx0 x y = mulf x y.
Proof.
  unfold GF256.gf256_mul. rewrite table_index_eq.
  cbn [ctx0 GF256.getGF256Ctx GF256.gf256_init GF256.GF256_MUL_TABLE].
  unfold GF256.mul_table.
  now rewrite (tabb_flat_rows (fun y x => tabb _ (tab _ x + tab _ y)))
    by apply Z_of_byte_range.
Qed.

Lemma gf256_div_eq (x y : byte) : GF256.gf256_div ctx0 x y = divf x y.
Proof.
  unfold GF256.gf256_div. rewrite table_index_eq.
  cbn [ctx0 GF256.getGF256Ctx GF256.gf256_init GF256.GF256_DIV_TABLE].
  unfold GF256.div_table.
  now rewrite (tabb_flat_rows
    (fun y x => if y =? 0 then x00 else tabb _ (tab _ x + 255 - tab _ y)))
    by apply Z_of_byte_range.
Qed.

Lemma gf256_inv_eq (x : byte) : GF256.gf256_inv ctx0 x = divf x01 x.
Proof.
  unfold GF256.gf256_inv, tabb.
  cbn [ctx0 GF256.getGF256Ctx GF256.gf256_init GF256.GF256_INV_TABLE].
  unfold GF256.inv_table. pose proof (Z_of_byte_range x) as Hx.
  rewrite nth_map_zrange by lia.
  unfold divf. destruct (Z_of_byte x =? 0) eqn:E; [reflexivity|].
  rewrite Z.shiftl_mul_pow2 by lia. change (2 ^ 8) with 256.
  change 1 with (Z_of_byte x01) at 1.
  fold (divf x01 x). unfold GF256.div_table.
  rewrite (tabb_flat_rows
    (fun y x => if y =? 0 then x00 else tabb _ (tab _ x + 255 - tab _ y)))
    by (try apply Z_of_byte_range; lia).
  now rewrite E.
Qed.

Lemma ctx0_shape : GF256.ctx_shape ctx0.
Proof.
  split; cbn [ctx0 GF256.getGF256Ctx GF256.gf256_init GF256.GF256_MUL_TABLE
               GF256.GF256_DIV_TABLE GF256.GF256_INV_TABLE
               GF256.GF256_SQR_TABLE GF256.GF256_LOG_TABLE
               GF256.GF256_EXP_TABLE].
  - unfold GF256.mul_table.
    rewrite length_flat_rows with (w := 256%nat), length_zrange; [reflexivity|].
    intros r. now rewrite length_map, length_zrange.
  - unfold GF256.div_table.
    rewrite length_flat_rows with (w := 256%nat), length_zrange; [reflexivity|].
    intros r. now rewrite length_map, length_zrange.
  - unfold GF256.inv_table. now rewrite length_map, length_zrange.
  - unfold GF256.sqr_table. now rewrite length_map, length_zrange.
  - unfold GF256.log_table. now rewrite length_map, length_zrange.
  - vm_compute. reflexivity.
Qed.

(** *** Facts checked on all bytes *)

Lemma add_lxor (x y : byte) :
  Z_of_byte (GF256.gf256_add x y) = Z.lxor (Z_of_byte x) (Z_of_byte y).
Proof.
  apply Z.eqb_eq. revert x y.
  apply (forall_bytes2 (fun x y =>
    Z_of_byte (GF256.gf256_add x y) =? Z.lxor (Z_of_byte x) (Z_of_byte y))).
  by_computation.
Qed.

(** *** Addition *)

Abbreviation gadd := GF256.gf256_add.
Abbreviation gmul := (GF256.gf256_mul ctx0).
Abbreviation gdiv := (GF256.gf256_div ctx0).
Abbreviation ginv := (GF256.gf256_inv ctx0).

Lemma gadd_comm (x y : byte) : gadd x y = gadd y x.
Proof. unfold GF256.gf256_add. now rewrite Z.lxor_comm. Qed.

Lemma gadd_assoc (x y z : byte) : gadd x (gadd y z) = gadd (gadd x y) z.
Proof.
  apply Z_of_byte_inj. rewrite !add_lxor. now rewrite Z.lxor_assoc.
Qed.

Lemma gadd_0_l (x : byte) : gadd x00 x = x.
Proof.
  apply Z_of_byte_inj. rewrite add_lxor. apply Z.lxor_0_l.
Qed.

Lemma gadd_0_r (x : byte) : gadd x x00 = x.
Proof. rewrite gadd_comm. apply gadd_0_l. Qed.

Lemma gadd_nilpotent (x : byte) : gadd x x = x00.
Proof.
  apply Z_of_byte_inj. rewrite add_lxor. apply Z.lxor_nilpotent.
Qed.

Lemma gadd_eq_0 (x y : byte) : gadd x y = x00 <-> x = y.
Proof.
  split.
  - intros H. apply Z_of_byte_inj. apply Z.lxor_eq.
    rewrite <- add_lxor, H. reflexivity.
  - intros ->. apply gadd_nilpotent.
Qed.

(** *** The discrete logarithm *)

Definition lg (x : byte) : Z := tab LOG (Z_of_byte x).

(** A predicate checked on [0 .. n-1] holds of every integer there. *)
Lemma forall_zrange (n : nat) (P : Z -> bool) :
  forallb P (zrange n) = true -> forall i, 0 <= i < Z.of_nat n -> P i = true.
Proof.
  intros H i Hi. rewrite forallb_forall in H. apply H. now apply in_zrange.
Qed.

Lemma mulf_lg (x y : byte) : mulf x y = tabb EXP (lg x + lg y).
Proof. reflexivity. Qed.

Lemma lg_range (x : byte) : x <> x00 -> 0 <= lg x < 255.
Proof.
  intros Hx.
  assert (H : Byte.eqb x x00 || ((0 <=? lg x) && (lg x <? 255)) = true).
  { clear Hx. revert x.
    apply (forall_bytes (fun x =>
      Byte.eqb x x00 || ((0 <=? lg x) && (lg x <? 255)))).
    by_computation. }
  apply orb_true_iff in H. destruct H as [H|H].
  - apply byte_eqb_eq in H. contradiction.
  - lia.
Qed.

Lemma lg_bound (x : byte) : 0 <= lg x <= 512.
Proof.
  assert (H : (0 <=? lg x) && (lg x <=? 512) = true).
  { revert x.
    apply (forall_bytes (fun x => (0 <=? lg x) && (lg x <=? 512))).
    by_computation. }
  lia.
Qed.

Lemma lg_0 : lg x00 = 512.
Proof. reflexivity. Qed.

Lemma lg_1 : lg x01 = 0.
Proof. reflexivity. Qed.

(** [EXP] on the doubled range of exponents: never 0, and [lg] undoes it. *)
Lemma exp_lg (i : Z) :
  0 <= i < 510 -> tabb EXP i <> x00 /\ lg (tabb EXP i) = i mod 255.
Proof.
  intros Hi.
  assert (H : negb (Byte.eqb (tabb EXP i) x00)
              && (lg (tabb EXP i) =? i mod 255) = true).
  { revert i Hi.
    apply (forall_zrange 510 (fun i =>
      negb (Byte.eqb (tabb EXP i) x00) && (lg (tabb EXP i) =? i mod 255))).
    by_computation. }
  apply andb_true_iff in H. destruct H as [H1 H2]. split.
  - apply byte_eqb_neq. now apply negb_true_iff.
  - lia.
Qed.

Lemma exp_periodic (i : Z) : 0 <= i < 510 -> tabb EXP i = tabb EXP (i mod 255).
Proof.
  intros Hi. apply byte_eqb_eq. revert i Hi.
  apply (forall_zrange 510 (fun i =>
    Byte.eqb (tabb EXP i) (tabb EXP (i mod 255)))).
  by_computation.
Qed.

(** [EXP] past the doubled range is 0: where the sentinel of 0 leads. *)
Lemma exp_high (i : Z) : 511 <= i < 1025 -> tabb EXP i = x00.
Proof.
  intros Hi. apply byte_eqb_eq.
  assert (H : forall j, 0 <= j < Z.of_nat 514 ->
                        Byte.eqb (tabb EXP (511 + j)) x00 = true).
  { apply (forall_zrange 514 (fun j => Byte.eqb (tabb EXP (511 + j)) x00)).
    by_computation. }
  replace i with (511 + (i - 511)) by lia. apply H. lia.
Qed.

Lemma exp_of_lg (x : byte) : x <> x00 -> tabb EXP (lg x) = x.
Proof.
  intros Hx.
  assert (H : Byte.eqb x x00 || Byte.eqb (tabb EXP (lg x)) x = true).
  { clear Hx. revert x.
    apply (forall_bytes (fun x =>
      Byte.eqb x x00 || Byte.eqb (tabb EXP (lg x)) x)).
    by_computation. }
  apply orb_true_iff in H. destruct H as [H|H]; apply byte_eqb_eq in H;
    [contradiction | exact H].
Qed.

(** *** Multiplication *)

Lemma mulf_comm (x y : byte) : mulf x y = mulf y x.
Proof. unfold mulf. now rewrite Z.add_comm. Qed.

Lemma mulf_0_l (x : byte) : mulf x00 x = x00.
Proof.
  rewrite mulf_lg, lg_0. pose proof (lg_bound x). apply exp_high. lia.
Qed.

Lemma mulf_0_r (x : byte) : mulf x x00 = x00.
Proof. rewrite mulf_comm. apply mulf_0_l. Qed.

Lemma mulf_1_l (x : byte) : mulf x01 x = x.
Proof.
  destruct (Byte.byte_eq_dec x x00) as [->|Hx]; [apply mulf_0_r|].
  rewrite mulf_lg, lg_1. now apply exp_of_lg.
Qed.

Lemma lg_mulf (x y : byte) :
  x <> x00 -> y <> x00 ->
  mulf x y <> x00 /\ lg (mulf x y) = (lg x + lg y) mod 255.
Proof.
  intros Hx Hy. pose proof (lg_range x Hx). pose proof (lg_range y Hy).
  rewrite mulf_lg. apply exp_lg. lia.
Qed.

Lemma mulf_assoc (x y z : byte) : mulf x (mulf y z) = mulf (mulf x y) z.
Proof.
  destruct (Byte.byte_eq_dec x x00) as [->|Hx].
  { now rewrite !mulf_0_l. }
  destruct (Byte.byte_eq_dec y x00) as [->|Hy].
  { now rewrite mulf_0_l, !mulf_0_r, mulf_0_l. }
  destruct (Byte.byte_eq_dec z x00) as [->|Hz].
  { now rewrite !mulf_0_r. }
  destruct (lg_mulf x y Hx Hy) as [_ Exy].
  destruct (lg_mulf y z Hy Hz) as [_ Eyz].
  pose proof (lg_range x Hx). pose proof (lg_range y Hy).
  pose proof (lg_range z Hz).
  rewrite (mulf_lg x (mulf y z)), (mulf_lg (mulf x y) z), Exy, Eyz.
  pose proof (Z.mod_pos_bound (lg x + lg y) 255 eq_refl).
  pose proof (Z.mod_pos_bound (lg y + lg z) 255 eq_refl).
  rewrite (exp_periodic (lg x + _)) by lia.
  rewrite (exp_periodic (_ + lg z)) by lia.
  rewrite Z.add_mod_idemp_r, Z.add_mod_idemp_l by lia.
  now rewrite Z.add_assoc.
Qed.

(** *** Distributivity *)

(** The sum of [c i] over the bits [i] of [x] listed in [l]. *)
Definition bitsum (c : nat -> byte) (l : list nat) (x : byte) : byte :=
  fold_right
    (fun i acc =>
       gadd (if Z.testbit (Z_of_byte x) (Z.of_nat i) then c i else x00) acc)
    x00 l.

Lemma bitsum_add (c : nat -> byte) (l : list nat) (x z : byte) :
  bitsum c l (gadd x z) = gadd (bitsum c l x) (bitsum c l z).
Proof.
  induction l as [|i l IH]; simpl.
  - now rewrite gadd_0_l.
  - rewrite IH, add_lxor, Z.lxor_spec.
    set (A := bitsum c l x). set (B := bitsum c l z).
    destruct (Z.testbit (Z_of_byte x) (Z.of_nat i)),
             (Z.testbit (Z_of_byte z) (Z.of_nat i)); simpl.
    + rewrite gadd_0_l.
      rewrite (gadd_assoc (gadd (c i) A)), <- (gadd_assoc (c i) A (c i)).
      rewrite (gadd_comm A (c i)), (gadd_assoc (c i)), gadd_nilpotent.
      now rewrite gadd_0_l.
    + rewrite gadd_0_l. now rewrite gadd_assoc.
    + rewrite gadd_0_l.
      rewrite !gadd_assoc. f_equal. apply gadd_comm.
    + now rewrite !gadd_0_l.
Qed.

Definition bit_weight (i : nat) : byte := byte_of_Z (2 ^ Z.of_nat i).

(** Multiplication by the primitive element is linear in the bits. *)
Lemma mulf_2_bits (y : byte) :
  mulf x02 y = bitsum (fun i => mulf x02 (bit_weight i)) (seq 0 8) y.
Proof.
  apply byte_eqb_eq. revert y.
  apply (forall_bytes (fun y =>
    Byte.eqb (mulf x02 y)
             (bitsum (fun i => mulf x02 (bit_weight i)) (seq 0 8) y))).
  by_computation.
Qed.

Lemma mulf_2_add (y z : byte) :
  mulf x02 (gadd y z) = gadd (mulf x02 y) (mulf x02 z).
Proof. rewrite !mulf_2_bits. apply bitsum_add. Qed.

Lemma exp_succ (i : Z) :
  0 <= i < 254 -> tabb EXP (i + 1) = mulf x02 (tabb EXP i).
Proof.
  intros Hi. apply byte_eqb_eq. revert i Hi.
  apply (forall_zrange 254 (fun i =>
    Byte.eqb (tabb EXP (i + 1)) (mulf x02 (tabb EXP i)))).
  by_computation.
Qed.

(** Multiplication by every power of the primitive element is additive. *)
Lemma mulf_exp_add (k : nat) (y z : byte) :
  (k < 255)%nat ->
  mulf (tabb EXP (Z.of_nat k)) (gadd y z)
  = gadd (mulf (tabb EXP (Z.of_nat k)) y) (mulf (tabb EXP (Z.of_nat k)) z).
Proof.
  induction k as [|k IH]; intros Hk.
  - change (tabb EXP (Z.of_nat 0)) with x01. now rewrite !mulf_1_l.
  - replace (Z.of_nat (S k)) with (Z.of_nat k + 1) by lia.
    rewrite exp_succ by lia.
    rewrite <- !mulf_assoc, IH by lia. apply mulf_2_add.
Qed.

Lemma mulf_add_r (x y z : byte) :
  mulf x (gadd y z) = gadd (mulf x y) (mulf x z).
Proof.
  destruct (Byte.byte_eq_dec x x00) as [->|Hx].
  { now rewrite !mulf_0_l, gadd_0_l. }
  pose proof (lg_range x Hx) as Hl.
  rewrite <- (exp_of_lg x Hx), <- (Z2Nat.id (lg x)) by lia.
  apply mulf_exp_add. lia.
Qed.

Lemma mulf_add_l (x z y : byte) :
  mulf (gadd x z) y = gadd (mulf x y) (mulf z y).
Proof. rewrite !(mulf_comm _ y). apply mulf_add_r. Qed.

(** *** Inverse and division *)

Lemma divf_0_r (x : byte) : divf x x00 = x00.
Proof. reflexivity. Qed.

Lemma divf_lg (x y : byte) :
  y <> x00 -> divf x y = tabb EXP (lg x + 255 - lg y).
Proof.
  intros Hy. unfold divf.
  destruct (Z_of_byte y =? 0) eqn:E; [|reflexivity].
  apply Z.eqb_eq in E. exfalso. apply Hy. now apply Z_of_byte_inj.
Qed.

Lemma divf_mulf (x y : byte) : divf x y = mulf x (divf x01 y).
Proof.
  destruct (Byte.byte_eq_dec y x00) as [->|Hy].
  { now rewrite !divf_0_r, mulf_0_r. }
  pose proof (lg_range y Hy) as Hly.
  rewrite !divf_lg by exact Hy. rewrite lg_1.
  destruct (Byte.byte_eq_dec x x00) as [->|Hx].
  { rewrite mulf_0_l, lg_0. apply exp_high. lia. }
  pose proof (lg_range x Hx) as Hlx.
  rewrite mulf_lg.
  destruct (exp_lg (0 + 255 - lg y) ltac:(lia)) as [_ ->].
  pose proof (Z.mod_pos_bound (0 + 255 - lg y) 255 eq_refl).
  rewrite (exp_periodic (lg x + 255 - lg y)) by lia.
  rewrite (exp_periodic (lg x + _ mod 255)) by lia.
  rewrite Z.add_mod_idemp_r by lia. f_equal. f_equal. lia.
Qed.

Lemma mulf_inv_l (x : byte) : x <> x00 -> mulf (divf x01 x) x = x01.
Proof.
  intros Hx. pose proof (lg_range x Hx) as Hl.
  rewrite divf_lg by exact Hx. rewrite lg_1, mulf_lg.
  destruct (exp_lg (0 + 255 - lg x) ltac:(lia)) as [_ ->].
  pose proof (Z.mod_pos_bound (0 + 255 - lg x) 255 eq_refl).
  rewrite exp_periodic by lia.
  rewrite Z.add_mod_idemp_l by lia.
  replace (0 + 255 - lg x + lg x) with 255 by lia. reflexivity.
Qed.

Lemma div_mul_cancel (x y : byte) : y <> x00 -> divf (mulf x y) y = x.
Proof.
  intros Hy. rewrite divf_mulf, <- mulf_assoc, (mulf_comm y), mulf_inv_l
    by exact Hy.
  rewrite mulf_comm. apply mulf_1_l.
Qed.

(** *** GF(2^8) is a field *)

Lemma gmul_comm (x y : byte) : gmul x y = gmul y x.
Proof. rewrite !gf256_mul_eq. apply mulf_comm. Qed.

Lemma gmul_assoc (x y z : byte) : gmul x (gmul y z) = gmul (gmul x y) z.
Proof. rewrite !gf256_mul_eq. apply mulf_assoc. Qed.

Lemma gmul_1_l (x : byte) : gmul x01 x = x.
Proof. rewrite gf256_mul_eq. apply mulf_1_l. Qed.

Lemma gmul_0_l (x : byte) : gmul x00 x = x00.
Proof. rewrite gf256_mul_eq. apply mulf_0_l. Qed.

Lemma gmul_add_l (x y z : byte) :
  gmul (gadd x y) z = gadd (gmul x z) (gmul y z).
Proof. rewrite !gf256_mul_eq. apply mulf_add_l. Qed.

Lemma gdiv_def (x y : byte) : gdiv x y = gmul x (ginv y).
Proof. rewrite gf256_div_eq, gf256_mul_eq, gf256_inv_eq. apply divf_mulf. Qed.

Lemma ginv_l (x : byte) : x <> x00 -> gmul (ginv x) x = x01.
Proof. intros H. rewrite gf256_mul_eq, gf256_inv_eq. now apply mulf_inv_l. Qed.

Lemma gf256_ring :
  ring_theory x00 x01 gadd gmul gadd (fun x => x) (@eq byte).
Proof.
  constructor.
  - apply gadd_0_l.
  - apply gadd_comm.
  - apply gadd_assoc.
  - apply gmul_1_l.
  - apply gmul_comm.
  - apply gmul_assoc.
  - apply gmul_add_l.
  - reflexivity.
  - apply gadd_nilpotent.
Qed.

Lemma gf256_field :
  field_theory x00 x01 gadd gmul gadd (fun x => x) gdiv ginv (@eq byte).
Proof.
  constructor.
  - apply gf256_ring.
  - discriminate.
  - apply gdiv_def.
  - apply ginv_l.
Qed.

(** The coefficients of polynomial identities live in GF(2). *)
Definition gf256_of_bool (b : bool) : byte := if b then x01 else x00.

Lemma gf256_morph :
  ring_morph x00 x01 gadd gmul gadd (fun x => x) (@eq byte)
             false true xorb andb xorb (fun b => b) Bool.eqb gf256_of_bool.
Proof.
  constructor; try reflexivity.
  - intros [] []; simpl; now rewrite ?gadd_nilpotent, ?gadd_0_l, ?gadd_0_r.
  - intros [] []; simpl; now rewrite ?gadd_nilpotent, ?gadd_0_l, ?gadd_0_r.
  - intros [] []; simpl; now rewrite ?gmul_1_l, ?gmul_0_l, ?(gmul_comm x01).
  - intros x y H. apply Bool.eqb_prop in H. now subst.
Qed.

Ltac gf256_cst t :=
  match t with
  | x00 => constr:(false)
  | x01 => constr:(true)
  | _ => constr:(InitialRing.NotConstant)
  end.

Add Field gf256_fld : gf256_field (morphism gf256_morph, constants [gf256_cst]).

(** ** Buffers *)

Lemma length_mem_loop (f : byte -> byte -> byte) (n : nat) (vz vx : list byte) :
  length (GF256.mem_loop f n vz vx) = length vz.
Proof.
  revert vz vx. induction n as [|n IH]; intros [|z vz] [|x vx]; simpl; auto.
Qed.

Lemma mem_loop_ext (f g : byte -> byte -> byte) (n : nat) (vz vx : list byte) :
  (forall z x, f z x = g z x) ->
  GF256.mem_loop f n vz vx = GF256.mem_loop g n vz vx.
Proof.
  intros E. revert vz vx.
  induction n as [|n IH]; intros [|z vz] [|x vx]; simpl; auto.
  now rewrite E, IH.
Qed.

Lemma nth_mem_loop (f : byte -> byte -> byte) (n : nat) (vz vx : list byte)
      (i : nat) :
  (i < n)%nat -> (n <= length vz)%nat -> (n <= length vx)%nat ->
  nth i (GF256.mem_loop f n vz vx) x00 = f (nth i vz x00) (nth i vx x00).
Proof.
  revert vz vx i.
  induction n as [|n IH]; intros [|z vz] [|x vx] i Hi Hz Hx;
    simpl in *; try lia.
  destruct i as [|i]; [reflexivity|]. apply IH; lia.
Qed.

Lemma nth_mem_loop_above (f : byte -> byte -> byte) (n : nat)
      (vz vx : list byte) (i : nat) :
  (n <= i)%nat ->
  nth i (GF256.mem_loop f n vz vx) x00 = nth i vz x00.
Proof.
  revert vz vx i.
  induction n as [|n IH]; intros [|z vz] [|x vx] i Hi; simpl; auto.
  destruct i as [|i]; [lia|]. apply IH. lia.
Qed.

(** A buffer of [n] bytes given by its contents. *)
Definition buffer (n : nat) (g : nat -> byte) : list byte := map g (seq 0 n).

Lemma length_buffer (n : nat) (g : nat -> byte) : length (buffer n g) = n.
Proof. unfold buffer. now rewrite length_map, length_seq. Qed.

Lemma nth_buffer (n : nat) (g : nat -> byte) (i : nat) :
  (i < n)%nat -> nth i (buffer n g) x00 = g i.
Proof.
  intros Hi. unfold buffer.
  rewrite nth_indep with (d' := g 0%nat)
    by (rewrite length_map, length_seq; exact Hi).
  rewrite map_nth, seq_nth by exact Hi. reflexivity.
Qed.

Lemma buffer_ext (n : nat) (g h : nat -> byte) :
  (forall i, (i < n)%nat -> g i = h i) -> buffer n g = buffer n h.
Proof.
  intros E. unfold buffer. apply map_ext_in. intros i Hi.
  apply in_seq in Hi. apply E. lia.
Qed.

Lemma buffer_of_list (v : list byte) :
  v = buffer (length v) (fun i => nth i v x00).
Proof.
  apply nth_ext with (d := x00) (d' := x00).
  - now rewrite length_buffer.
  - intros i Hi. now rewrite nth_buffer.
Qed.

Lemma mem_loop_buffer (f : byte -> byte -> byte) (n : nat) (g h : nat -> byte) :
  GF256.mem_loop f n (buffer n g) (buffer n h)
  = buffer n (fun i => f (g i) (h i)).
Proof.
  apply nth_ext with (d := x00) (d' := x00).
  - now rewrite length_mem_loop, !length_buffer.
  - intros i Hi. rewrite length_mem_loop, length_buffer in Hi.
    rewrite nth_mem_loop by (rewrite ?length_buffer; lia).
    now rewrite !nth_buffer.
Qed.

(** [gf256_div_mem] multiplies by the inverse, and copies when [y = 1]. *)
Lemma gf256_div_mem_inverse_gen (vz vx : list byte) (y : byte) (n : Z) :
  GF256.gf256_div_mem ctx0 vz vx y n
  = GF256.gf256_mul_mem ctx0 vz vx (GF256.gf256_inv ctx0 y) n
  /\ GF256.gf256_div_mem ctx0 vz vx x01 n = GF256.memcpy vz vx n.
Proof.
  split.
  - unfold GF256.gf256_div_mem.
    destruct (Z_of_byte y =? 1) eqn:E; [|reflexivity].
    apply Z.eqb_eq in E.
    assert (y = x01) as -> by (apply Z_of_byte_inj; exact E).
    change (byte_of_Z 1) with x01.
    now rewrite gf256_inv_eq, <- (mulf_1_l (divf x01 x01)), mulf_comm,
      mulf_inv_l by discriminate.
  - unfold GF256.gf256_div_mem, GF256.gf256_mul_mem, GF256.memcpy.
    change (Z_of_byte x01 =? 1) with true. cbv iota.
    change (byte_of_Z 1) with x01.
    apply mem_loop_ext. intros _ x. rewrite gmul_comm. apply gmul_1_l.
Qed.

(** * The claims *)

(** The parameter sets of the spec: [original_count] in 1..255,
    [recovery_count] in 1..255, their sum at most 256, [block_bytes] > 0. *)
Definition valid_params (params : EncoderParams) : Prop :=
  1 <= OriginalCount params <= 255 /\ 1 <= RecoveryCount params <= 255
  /\ OriginalCount params + RecoveryCount params <= 256
  /\ 0 < BlockBytes params.

Lemma valid_params_ok (params : EncoderParams) :
  valid_params params <-> params_ok params = true.
Proof.
  unfold valid_params, params_ok. rewrite !andb_true_iff. lia.
Qed.

(** C3.  For every byte [y] and every byte count [n], [gf256_div_mem]
    computes what [gf256_mul_mem] computes with the multiplier [INV[y]];
    for [y = 1] it is a plain copy of [x] into [z]: the result is that of
    [memcpy], and byte [i] of the result is byte [i] of [x] for every
    [i < n]. *)
Theorem gf256_div_mem_mul_inverse (vz vx : list byte) (y : byte) (n : Z) :
  GF256.gf256_div_mem ctx0 vz vx y n
  = GF256.gf256_mul_mem ctx0 vz vx (GF256.gf256_inv ctx0 y) n
  /\ GF256.gf256_div_mem ctx0 vz vx x01 n = GF256.memcpy vz vx n
  /\ forall i : nat,
       (i < Z.to_nat n)%nat ->
       (Z.to_nat n <= length vz)%nat -> (Z.to_nat n <= length vx)%nat ->
       nth i (GF256.gf256_div_mem ctx0 vz vx x01 n) x00 = nth i vx x00.
Proof.
  destruct (gf256_div_mem_inverse_gen vz vx y n) as [Hinv Hone].
  split; [exact Hinv|]. split; [exact Hone|].
  intros i Hi Hz Hx. rewrite Hone. unfold GF256.memcpy.
  now rewrite nth_mem_loop.
Qed.

Lemma gf256_div_mem_mul_inverse_witness :
  nth 1 (GF256.gf256_div_mem ctx0 [x00; x00; x00] [x0a; x0b; x0c] x01 2) x00
  = x0b.
Proof.
  apply (proj2 (proj2 (gf256_div_mem_mul_inverse
                         [x00; x00; x00] [x0a; x0b; x0c] x01 2)) 1%nat);
    simpl; lia.
Defined.

(** C7.  Division inverts multiplication: for every byte [x] and every
    byte [y] other than 0, [gf256_div (gf256_mul x y) y = x]. *)
Theorem gf256_div_mul_inverse (x y : byte) :
  1 <= Z_of_byte y ->
  GF256.gf256_div ctx0 (GF256.gf256_mul ctx0 x y) y = x.
Proof.
  intros Hy. rewrite gf256_div_eq, gf256_mul_eq. apply div_mul_cancel.
  intros ->. vm_compute in Hy. now apply Hy.
Qed.

Lemma gf256_div_mul_inverse_witness :
  1 <= Z_of_byte x07
  /\ GF256.gf256_div ctx0 (GF256.gf256_mul ctx0 x53 x07) x07 = x53.
Proof.
  split; [vm_compute; discriminate|].
  apply (gf256_div_mul_inverse x53 x07). vm_compute. discriminate.
Defined.

(** C8.  [gf256_div] never reads outside its table: for every pair of bytes
    [x] and [y], [y = 0] included, the index [(y << 8) + x] is below
    [256 * 256], so the read of a [GF256_DIV_TABLE] of that size succeeds
    and is what [gf256_div] returns. *)
Theorem gf256_div_in_bounds (ctx : GF256.gf256_ctx) (x y : byte) :
  GF256.ctx_shape ctx ->
  0 <= GF256.table_index x y < 256 * 256
  /\ exists v : byte,
       nth_error (GF256.GF256_DIV_TABLE ctx)
                 (Z.to_nat (GF256.table_index x y)) = Some v
       /\ GF256.gf256_div ctx x y = v.
Proof.
  intros Hs. rewrite table_index_eq.
  pose proof (Z_of_byte_range x). pose proof (Z_of_byte_range y).
  split; [lia|].
  exists (GF256.gf256_div ctx x y). split; [|reflexivity].
  unfold GF256.gf256_div, tabb. rewrite table_index_eq.
  apply nth_error_nth'. rewrite (GF256.shape_div ctx Hs). lia.
Qed.

Lemma gf256_div_in_bounds_witness :
  0 <= GF256.table_index xff x00 < 256 * 256
  /\ exists v : byte,
       nth_error (GF256.GF256_DIV_TABLE ctx0)
                 (Z.to_nat (GF256.table_index xff x00)) = Some v
       /\ GF256.gf256_div ctx0 xff x00 = v.
Proof.
  apply (gf256_div_in_bounds ctx0 xff x00). exact ctx0_shape.
Defined.

(** C9.  For every valid parameter set and every [recoveryBlockIndex] in
    [0, recovery_count), [GetRecoveryBlockIndex] returns the byte
    [original_count + recoveryBlockIndex], which is at most 255: the cast
    to [unsigned char] loses nothing. *)
Theorem GetRecoveryBlockIndex_exact (params : EncoderParams) (i : Z) :
  valid_params params ->
  0 <= i < RecoveryCount params ->
  exists b : byte,
    GetRecoveryBlockIndex params i = Some b
    /\ Z_of_byte b = OriginalCount params + i
    /\ OriginalCount params + i <= 255.
Proof.
  intros (Hk & Hr & Hsum & Hbb) Hi. unfold GetRecoveryBlockIndex.
  replace ((0 <=? i) && (i <? RecoveryCount params)) with true
    by (symmetry; apply andb_true_iff; lia).
  eexists. split; [reflexivity|]. split; [|lia].
  apply Z_of_byte_of_Z. lia.
Qed.

Lemma GetRecoveryBlockIndex_exact_witness :
  exists b : byte,
    GetRecoveryBlockIndex
      {| OriginalCount := 255; RecoveryCount := 1; BlockBytes := 16 |} 0
    = Some b
    /\ Z_of_byte b = 255 + 0 /\ 255 + 0 <= 255.
Proof.
  apply (GetRecoveryBlockIndex_exact
           {| OriginalCount := 255; RecoveryCount := 1; BlockBytes := 16 |} 0).
  - unfold valid_params. simpl. lia.
  - simpl. lia.
Defined.

(** C10.  [gf256_add] is commutative. *)
Theorem gf256_add_commutative (x y : byte) :
  GF256.gf256_add x y = GF256.gf256_add y x.
Proof. apply gadd_comm. Qed.

(** * Further properties of [GaloisField.h] *)

(** The entries of the SQR table, by the LOG/EXP formula of the product. *)
Lemma gf256_sqr_eq (x : byte) : GF256.gf256_sqr ctx0 x = mulf x x.
Proof.
  unfold GF256.gf256_sqr, tabb.
  cbn [ctx0 GF256.getGF256Ctx GF256.gf256_init GF256.GF256_SQR_TABLE].
  unfold GF256.sqr_table. pose proof (Z_of_byte_range x) as Hx.
  rewrite nth_map_zrange by lia.
  rewrite Z.shiftl_mul_pow2 by lia. change (2 ^ 8) with 256.
  unfold GF256.mul_table.
  now rewrite (tabb_flat_rows (fun y x => tabb _ (tab _ x + tab _ y)))
    by lia.
Qed.

Lemma gsqr_def (x : byte) : GF256.gf256_sqr ctx0 x = gmul x x.
Proof. now rewrite gf256_sqr_eq, gf256_mul_eq. Qed.

Lemma byte_of_Z_inj (a b : Z) :
  0 <= a < 256 -> 0 <= b < 256 -> byte_of_Z a = byte_of_Z b -> a = b.
Proof.
  intros Ha Hb E.
  rewrite <- (Z_of_byte_of_Z a Ha), <- (Z_of_byte_of_Z b Hb). now rewrite E.
Qed.

Lemma byte_of_Z_wrap (z : Z) : byte_of_Z (z - 256) = byte_of_Z z.
Proof.
  unfold byte_of_Z.
  replace (z - 256) with (z + (-1) * 256) by lia.
  now rewrite Z_mod_plus_full.
Qed.

(** X1.  [gf256_add] is associative. *)
Theorem gf256_add_associative (x y z : byte) :
  GF256.gf256_add x (GF256.gf256_add y z)
  = GF256.gf256_add (GF256.gf256_add x y) z.
Proof. apply gadd_assoc. Qed.

(** X2.  The sum of two bytes is zero exactly when they are equal: every
    byte is its own opposite, and no other byte is. *)
Theorem gf256_add_zero_iff_equal (x y : byte) :
  GF256.gf256_add x y = x00 <-> x = y.
Proof. apply gadd_eq_0. Qed.

(** X3.  Adding [y] twice gives back [x]: subtraction is addition.  Zero is
    neutral on both sides. *)
Theorem gf256_add_twice (x y : byte) :
  GF256.gf256_add (GF256.gf256_add x y) y = x
  /\ GF256.gf256_add x x00 = x
  /\ GF256.gf256_add x00 x = x.
Proof.
  split; [|split; [apply gadd_0_r | apply gadd_0_l]].
  now rewrite <- gadd_assoc, gadd_nilpotent, gadd_0_r.
Qed.

(** X4.  The cast to [uint8_t] in [gf256_add] loses nothing: the result is
    the exclusive or of the operands as integers, bit by bit. *)
Theorem gf256_add_bitwise (x y : byte) :
  Z_of_byte (GF256.gf256_add x y) = Z.lxor (Z_of_byte x) (Z_of_byte y)
  /\ forall i : Z,
       Z.testbit (Z_of_byte (GF256.gf256_add x y)) i
       = xorb (Z.testbit (Z_of_byte x) i) (Z.testbit (Z_of_byte y) i).
Proof.
  split; [apply add_lxor|].
  intros i. rewrite add_lxor. apply Z.lxor_spec.
Qed.

(** X5.  The index [((unsigned)y << 8) + x] of [gf256_mul] and [gf256_div]
    never wraps around: it is [256 * y + x], row [y] and column [x] of the
    table, and two pairs of operands read the same entry only when they are
    the same pair. *)
Theorem table_index_row_major (x y x' y' : byte) :
  GF256.table_index x y = 256 * Z_of_byte y + Z_of_byte x
  /\ (GF256.table_index x y = GF256.table_index x' y' <-> x = x' /\ y = y').
Proof.
  rewrite !table_index_eq.
  pose proof (Z_of_byte_range x). pose proof (Z_of_byte_range y).
  pose proof (Z_of_byte_range x'). pose proof (Z_of_byte_range y').
  split; [lia|]. split.
  - intros E. split; apply Z_of_byte_inj; lia.
  - now intros [-> ->].
Qed.

(** X6.  [gf256_mul] never reads outside its table: with the array bounds
    of the class, the read of [GF256_MUL_TABLE] at [(y << 8) + x] succeeds
    for every pair of bytes and is what [gf256_mul] returns. *)
Theorem gf256_mul_in_bounds (ctx : GF256.gf256_ctx) (x y : byte) :
  GF256.ctx_shape ctx ->
  exists v : byte,
    nth_error (GF256.GF256_MUL_TABLE ctx)
              (Z.to_nat (GF256.table_index x y)) = Some v
    /\ GF256.gf256_mul ctx x y = v.
Proof.
  intros Hs.
  pose proof (Z_of_byte_range x). pose proof (Z_of_byte_range y).
  exists (GF256.gf256_mul ctx x y). split; [|reflexivity].
  unfold GF256.gf256_mul, tabb. rewrite table_index_eq.
  apply nth_error_nth'. rewrite (GF256.shape_mul ctx Hs). lia.
Qed.

Lemma gf256_mul_in_bounds_witness :
  exists v : byte,
    nth_error (GF256.GF256_MUL_TABLE ctx0)
              (Z.to_nat (GF256.table_index xff xff)) = Some v
    /\ GF256.gf256_mul ctx0 xff xff = v.
Proof.
  apply (gf256_mul_in_bounds ctx0 xff xff). exact ctx0_shape.
Defined.

(** X7.  [gf256_inv] and [gf256_sqr] never read outside their tables: with
    the array bounds of the class, the reads of [GF256_INV_TABLE] and
    [GF256_SQR_TABLE] at a byte succeed and are what the functions
    return. *)
Theorem gf256_inv_sqr_in_bounds (ctx : GF256.gf256_ctx) (x : byte) :
  GF256.ctx_shape ctx ->
  (exists v : byte,
      nth_error (GF256.GF256_INV_TABLE ctx) (Z.to_nat (Z_of_byte x)) = Some v
      /\ GF256.gf256_inv ctx x = v)
  /\ (exists v : byte,
         nth_error (GF256.GF256_SQR_TABLE ctx) (Z.to_nat (Z_of_byte x))
         = Some v
         /\ GF256.gf256_sqr ctx x = v).
Proof.
  intros Hs. pose proof (Z_of_byte_range x). split.
  - exists (GF256.gf256_inv ctx x). split; [|reflexivity].
    unfold GF256.gf256_inv, tabb.
    apply nth_error_nth'. rewrite (GF256.shape_inv ctx Hs). lia.
  - exists (GF256.gf256_sqr ctx x). split; [|reflexivity].
    unfold GF256.gf256_sqr, tabb.
    apply nth_error_nth'. rewrite (GF256.shape_sqr ctx Hs). lia.
Qed.

Lemma gf256_inv_sqr_in_bounds_witness :
  (exists v : byte,
      nth_error (GF256.GF256_INV_TABLE ctx0) (Z.to_nat (Z_of_byte xff))
      = Some v
      /\ GF256.gf256_inv ctx0 xff = v)
  /\ (exists v : byte,
         nth_error (GF256.GF256_SQR_TABLE ctx0) (Z.to_nat (Z_of_byte xff))
         = Some v
         /\ GF256.gf256_sqr ctx0 xff = v).
Proof.
  apply (gf256_inv_sqr_in_bounds ctx0 xff). exact ctx0_shape.
Defined.

(** * Further properties of the block indices *)

(** X8.  For every valid parameter set and every [originalBlockIndex] in
    [0, original_count), [GetOriginalBlockIndex] returns that index as a
    byte: the assertion holds and the cast to [unsigned char] loses
    nothing. *)
Theorem GetOriginalBlockIndex_exact (params : EncoderParams) (i : Z) :
  valid_params params ->
  0 <= i < OriginalCount params ->
  exists b : byte,
    GetOriginalBlockIndex params i = Some b /\ Z_of_byte b = i.
Proof.
  intros (Hk & _) Hi. unfold GetOriginalBlockIndex.
  replace ((0 <=? i) && (i <? OriginalCount params)) with true
    by (symmetry; apply andb_true_iff; lia).
  eexists. split; [reflexivity|]. apply Z_of_byte_of_Z. lia.
Qed.

Lemma GetOriginalBlockIndex_exact_witness :
  exists b : byte,
    GetOriginalBlockIndex
      {| OriginalCount := 255; RecoveryCount := 1; BlockBytes := 16 |} 254
    = Some b
    /\ Z_of_byte b = 254.
Proof.
  apply (GetOriginalBlockIndex_exact
           {| OriginalCount := 255; RecoveryCount := 1; BlockBytes := 16 |}
           254).
  - unfold valid_params. simpl. lia.
  - simpl. lia.
Defined.

(** X9.  For a valid parameter set the index of an original block lies
    below [OriginalCount] and the index of a recovery block at or above
    it, so the [Index] of a block tells which kind it is, and an original
    and a recovery never share one. *)
Theorem block_indices_disjoint (params : EncoderParams) (i j : Z)
        (a b : byte) :
  valid_params params ->
  GetOriginalBlockIndex params i = Some a ->
  GetRecoveryBlockIndex params j = Some b ->
  Z_of_byte a < OriginalCount params <= Z_of_byte b /\ a <> b.
Proof.
  intros (Hk & Hr & Hsum & _).
  unfold GetOriginalBlockIndex, GetRecoveryBlockIndex.
  destruct ((0 <=? i) && (i <? OriginalCount params)) eqn:Ei;
    [|discriminate].
  destruct ((0 <=? j) && (j <? RecoveryCount params)) eqn:Ej;
    [|discriminate].
  apply andb_true_iff in Ei, Ej.
  intros [= <-] [= <-].
  rewrite !Z_of_byte_of_Z by lia.
  split; [lia|]. intros E. apply byte_of_Z_inj in E; lia.
Qed.

Lemma block_indices_disjoint_witness :
  Z_of_byte x02 < 3 <= Z_of_byte x03 /\ x02 <> x03.
Proof.
  apply (block_indices_disjoint
           {| OriginalCount := 3; RecoveryCount := 2; BlockBytes := 4 |}
           2 0 x02 x03).
  - unfold valid_params. simpl. lia.
  - reflexivity.
  - reflexivity.
Defined.

(** X10.  For a valid parameter set two originals, and two recoveries, get
    the same [Index] only when they are the same block: on the block
    numbers that pass the assertions, [GetOriginalBlockIndex] and
    [GetRecoveryBlockIndex] are injective. *)
Theorem block_indices_injective (params : EncoderParams) (i j i' j' : Z) :
  valid_params params ->
  0 <= i < OriginalCount params ->
  0 <= j < OriginalCount params ->
  0 <= i' < RecoveryCount params ->
  0 <= j' < RecoveryCount params ->
  (GetOriginalBlockIndex params i = GetOriginalBlockIndex params j
   <-> i = j)
  /\ (GetRecoveryBlockIndex params i' = GetRecoveryBlockIndex params j'
      <-> i' = j').
Proof.
  intros (Hk & Hr & Hsum & _) Hi Hj Hi' Hj'.
  unfold GetOriginalBlockIndex, GetRecoveryBlockIndex.
  replace ((0 <=? i) && (i <? OriginalCount params)) with true
    by (symmetry; apply andb_true_iff; lia).
  replace ((0 <=? j) && (j <? OriginalCount params)) with true
    by (symmetry; apply andb_true_iff; lia).
  replace ((0 <=? i') && (i' <? RecoveryCount params)) with true
    by (symmetry; apply andb_true_iff; lia).
  replace ((0 <=? j') && (j' <? RecoveryCount params)) with true
    by (symmetry; apply andb_true_iff; lia).
  split; (split; [intros [= E] | now intros ->]);
    apply byte_of_Z_inj in E; lia.
Qed.

Lemma block_indices_injective_witness :
  (GetOriginalBlockIndex
     {| OriginalCount := 3; RecoveryCount := 2; BlockBytes := 4 |} 0
   = GetOriginalBlockIndex
       {| OriginalCount := 3; RecoveryCount := 2; BlockBytes := 4 |} 2
   <-> 0 = 2)
  /\ (GetRecoveryBlockIndex
        {| OriginalCount := 3; RecoveryCount := 2; BlockBytes := 4 |} 0
      = GetRecoveryBlockIndex
          {| OriginalCount := 3; RecoveryCount := 2; BlockBytes := 4 |} 1
      <-> 0 = 1).
Proof.
  apply (block_indices_injective
           {| OriginalCount := 3; RecoveryCount := 2; BlockBytes := 4 |}
           0 2 0 1).
  - unfold valid_params. simpl. lia.
  - simpl. lia.
  - simpl. lia.
  - simpl. lia.
  - simpl. lia.
Defined.

(** X11.  Past the precondition [originalCount + recoveryCount <= 256] the
    cast in [GetRecoveryBlockIndex] wraps around: a recovery whose index
    [OriginalCount + i] reaches 256 gets the [Index] of the original
    [OriginalCount + i - 256]. *)
Theorem GetRecoveryBlockIndex_wraps (params : EncoderParams) (i : Z) :
  OriginalCount params <= 256 ->
  0 <= i < RecoveryCount params ->
  i < 256 ->
  256 <= OriginalCount params + i ->
  exists b : byte,
    GetRecoveryBlockIndex params i = Some b
    /\ GetOriginalBlockIndex params (OriginalCount params + i - 256) = Some b.
Proof.
  intros Hk Hi Hi' Hwrap.
  unfold GetOriginalBlockIndex, GetRecoveryBlockIndex.
  replace ((0 <=? i) && (i <? RecoveryCount params)) with true
    by (symmetry; apply andb_true_iff; lia).
  replace ((0 <=? OriginalCount params + i - 256)
           && (OriginalCount params + i - 256 <? OriginalCount params))
    with true by (symmetry; apply andb_true_iff; lia).
  eexists. split; [reflexivity|]. now rewrite byte_of_Z_wrap.
Qed.

Lemma GetRecoveryBlockIndex_wraps_witness :
  exists b : byte,
    GetRecoveryBlockIndex
      {| OriginalCount := 200; RecoveryCount := 100; BlockBytes := 4 |} 56
    = Some b
    /\ GetOriginalBlockIndex
         {| OriginalCount := 200; RecoveryCount := 100; BlockBytes := 4 |}
         (200 + 56 - 256)
       = Some b.
Proof.
  apply (GetRecoveryBlockIndex_wraps
           {| OriginalCount := 200; RecoveryCount := 100; BlockBytes := 4 |}
           56); simpl; lia.
Defined.

(** ** Sums and products in GF(2^8) *)

(** From here on the field operations are used through their laws only. *)
Opaque GF256.gf256_add GF256.gf256_mul GF256.gf256_div GF256.gf256_inv.

Lemma gadd_cancel (a b : byte) : gadd a (gadd a b) = b.
Proof. ring. Qed.

Lemma gmul_0_r (x : byte) : gmul x x00 = x00.
Proof. ring. Qed.

Lemma gmul_1_r (x : byte) : gmul x x01 = x.
Proof. ring. Qed.

Lemma gmul_integral (a b : byte) : gmul a b = x00 -> a = x00 \/ b = x00.
Proof.
  intros H. destruct (Byte.byte_eq_dec a x00) as [Ha|Ha]; [now left|right].
  assert (E : b = gmul (ginv a) (gmul a b)).
  { rewrite gmul_assoc, ginv_l by exact Ha. ring. }
  rewrite E, H. ring.
Qed.

Lemma gmul_neq_0 (a b : byte) : a <> x00 -> b <> x00 -> gmul a b <> x00.
Proof. intros Ha Hb H. destruct (gmul_integral a b H); contradiction. Qed.

Lemma ginv_neq_0 (a : byte) : a <> x00 -> ginv a <> x00.
Proof.
  intros Ha H. pose proof (ginv_l a Ha) as E. rewrite H, gmul_0_l in E.
  discriminate.
Qed.

Lemma gdiv_neq_0 (a b : byte) : a <> x00 -> b <> x00 -> gdiv a b <> x00.
Proof.
  intros Ha Hb. rewrite gdiv_def. apply gmul_neq_0; [|apply ginv_neq_0]; auto.
Qed.

Lemma gdiv_0_l (b : byte) : gdiv x00 b = x00.
Proof. rewrite gdiv_def. ring. Qed.

Lemma gdiv_same (a : byte) : a <> x00 -> gdiv a a = x01.
Proof. intros Ha. field. exact Ha. Qed.

Lemma gadd_neq_0 (a b : byte) : a <> b -> gadd a b <> x00.
Proof. intros H E. apply H. now apply gadd_eq_0. Qed.

Section Sums.

Context {A : Type}.

(** The sum of [f a] over the list [l]. *)
Definition gsum (l : list A) (f : A -> byte) : byte :=
  fold_right (fun a acc => gadd (f a) acc) x00 l.

Lemma gsum_cons (a : A) (l : list A) (f : A -> byte) :
  gsum (a :: l) f = gadd (f a) (gsum l f).
Proof. reflexivity. Qed.

Lemma gsum_app (l1 l2 : list A) (f : A -> byte) :
  gsum (l1 ++ l2) f = gadd (gsum l1 f) (gsum l2 f).
Proof.
  induction l1 as [|a l1 IH]; simpl.
  - now rewrite gadd_0_l.
  - rewrite IH. apply gadd_assoc.
Qed.

Lemma gsum_ext (l : list A) (f g : A -> byte) :
  (forall a, In a l -> f a = g a) -> gsum l f = gsum l g.
Proof.
  intros E. induction l as [|a l IH]; [reflexivity|]. simpl.
  rewrite (E a) by now left. rewrite IH; [reflexivity|].
  intros b Hb. apply E. now right.
Qed.

Lemma gsum_zero (l : list A) (f : A -> byte) :
  (forall a, In a l -> f a = x00) -> gsum l f = x00.
Proof.
  intros E. induction l as [|a l IH]; [reflexivity|]. simpl.
  rewrite (E a) by now left. rewrite IH; [apply gadd_0_l|].
  intros b Hb. apply E. now right.
Qed.

Lemma gsum_add (l : list A) (f g : A -> byte) :
  gsum l (fun a => gadd (f a) (g a)) = gadd (gsum l f) (gsum l g).
Proof.
  induction l as [|a l IH]; simpl.
  - now rewrite gadd_0_l.
  - rewrite IH. ring.
Qed.

Lemma gsum_scale_r (l : list A) (f : A -> byte) (c : byte) :
  gsum l (fun a => gmul (f a) c) = gmul (gsum l f) c.
Proof.
  induction l as [|a l IH]; simpl.
  - now rewrite gmul_0_l.
  - rewrite IH. ring.
Qed.

Lemma gsum_perm (l1 l2 : list A) (f : A -> byte) :
  Permutation l1 l2 -> gsum l1 f = gsum l2 f.
Proof.
  induction 1 as [| a l1 l2 _ IH | a b l | l1 l2 l3 _ IH1 _ IH2]; simpl.
  - reflexivity.
  - now rewrite IH.
  - ring.
  - now rewrite IH1.
Qed.

End Sums.

Lemma gsum_map (A B : Type) (h : A -> B) (l : list A) (f : B -> byte) :
  gsum (map h l) f = gsum l (fun a => f (h a)).
Proof.
  induction l as [|a l IH]; [reflexivity|]. simpl. now rewrite IH.
Qed.

(** A sum whose only non-zero term is the one at [i]. *)
Lemma gsum_single (n i : nat) (f : nat -> byte) :
  (i < n)%nat ->
  (forall t, (t < n)%nat -> t <> i -> f t = x00) ->
  gsum (seq 0 n) f = f i.
Proof.
  intros Hi Hz.
  replace (seq 0 n) with (seq 0 i ++ i :: seq (S i) (n - S i)).
  - rewrite gsum_app, gsum_cons.
    rewrite (gsum_zero (seq 0 i)), (gsum_zero (seq (S i) _)).
    + ring.
    + intros t Ht. apply in_seq in Ht. apply Hz; lia.
    + intros t Ht. apply in_seq in Ht. apply Hz; lia.
  - change (i :: seq (S i) (n - S i)) with (seq i (S (n - S i))).
    rewrite <- seq_app. f_equal. lia.
Qed.

Lemma gf256_prod_snoc (l : list nat) (t : nat) (f : nat -> byte) :
  gf256_prod (l ++ [t]) f = gmul (gf256_prod l f) (f t).
Proof.
  unfold gf256_prod. induction l as [|a l IH]; simpl.
  - ring.
  - rewrite IH. ring.
Qed.

Lemma gf256_prod_neq_0 (l : list nat) (f : nat -> byte) :
  (forall t, In t l -> f t <> x00) -> gf256_prod l f <> x00.
Proof.
  intros H. unfold gf256_prod. induction l as [|a l IH]; simpl.
  - discriminate.
  - apply gmul_neq_0; [apply H; now left|].
    apply IH. intros t Ht. apply H. now right.
Qed.

Lemma gf256_prod_eq_0 (l : list nat) (f : nat -> byte) (t : nat) :
  In t l -> f t = x00 -> gf256_prod l f = x00.
Proof.
  intros Ht E. unfold gf256_prod. induction l as [|a l IH]; simpl.
  - destruct Ht.
  - destruct Ht as [->|Ht].
    + rewrite E. ring.
    + fold (gf256_prod l f) in *. rewrite IH by exact Ht. ring.
Qed.

(** ** The closed-form factorization *)

Section SchurFacts.

Variables x y q : nat -> byte.
Variable m : nat.

Hypothesis Hxy : forall i j, (i < m)%nat -> (j < m)%nat -> x i <> y j.
Hypothesis Hx : forall i j, (i < m)%nat -> (j < m)%nat -> i <> j -> x i <> x j.
Hypothesis Hy : forall i j, (i < m)%nat -> (j < m)%nat -> i <> j -> y i <> y j.
Hypothesis Hq : forall j, (j < m)%nat -> q j <> x00.

Local Abbreviation S := (Schur x y q).
Local Abbreviation L := (Lower x y q).
Local Abbreviation U := (Upper x y q).
Local Abbreviation D := (Pivot x y q).

Lemma prod_xy_neq_0 (n i : nat) :
  (n <= m)%nat -> (i < m)%nat ->
  gf256_prod (seq 0 n) (fun t => gadd (x i) (y t)) <> x00.
Proof.
  intros Hn Hi. apply gf256_prod_neq_0. intros t Ht. apply in_seq in Ht.
  apply gadd_neq_0, Hxy; lia.
Qed.

Lemma prod_yx_neq_0 (n j : nat) :
  (n <= m)%nat -> (j < m)%nat ->
  gf256_prod (seq 0 n) (fun t => gadd (x t) (y j)) <> x00.
Proof.
  intros Hn Hj. apply gf256_prod_neq_0. intros t Ht. apply in_seq in Ht.
  apply gadd_neq_0, Hxy; lia.
Qed.

Lemma prod_xx_neq_0 (n : nat) :
  (n < m)%nat -> gf256_prod (seq 0 n) (fun t => gadd (x n) (x t)) <> x00.
Proof.
  intros Hn. apply gf256_prod_neq_0. intros t Ht. apply in_seq in Ht.
  apply gadd_neq_0, Hx; lia.
Qed.

Lemma prod_yy_neq_0 (n : nat) :
  (n < m)%nat -> gf256_prod (seq 0 n) (fun t => gadd (y n) (y t)) <> x00.
Proof.
  intros Hn. apply gf256_prod_neq_0. intros t Ht. apply in_seq in Ht.
  apply gadd_neq_0, Hy; lia.
Qed.

Lemma Pivot_neq_0 (n : nat) : (n < m)%nat -> D n <> x00.
Proof.
  intros Hn. unfold Pivot, Schur. apply gdiv_neq_0.
  - apply gmul_neq_0; [now apply Hq|].
    apply gmul_neq_0; [now apply prod_xx_neq_0 | now apply prod_yy_neq_0].
  - apply gmul_neq_0; [apply gadd_neq_0; now apply Hxy|].
    apply gmul_neq_0; [apply prod_xy_neq_0 | apply prod_yx_neq_0]; lia.
Qed.

(** Row [i] and column [j] vanish once they are eliminated. *)
Lemma Schur_row_done (n i j : nat) : (i < n)%nat -> S n i j = x00.
Proof.
  intros Hi. unfold Schur.
  rewrite (gf256_prod_eq_0 (seq 0 n) (fun t => gadd (x i) (x t)) i).
  - rewrite gmul_0_l, gmul_0_r. apply gdiv_0_l.
  - apply in_seq. lia.
  - apply gadd_nilpotent.
Qed.

Lemma Schur_col_done (n i j : nat) : (j < n)%nat -> S n i j = x00.
Proof.
  intros Hj. unfold Schur.
  rewrite (gf256_prod_eq_0 (seq 0 n) (fun t => gadd (y j) (y t)) j).
  - rewrite !gmul_0_r. apply gdiv_0_l.
  - apply in_seq. lia.
  - apply gadd_nilpotent.
Qed.

(** The matrix at step 0 is the (normalized) Cauchy matrix itself. *)
Lemma Schur_0 (i j : nat) : S 0 i j = gdiv (q j) (gadd (x i) (y j)).
Proof.
  unfold Schur. simpl. now rewrite !gmul_1_r.
Qed.

(** One elimination step. *)
Lemma Schur_step (n i j : nat) :
  (n < m)%nat -> (i < m)%nat -> (j < m)%nat ->
  gadd (S n i j) (gmul (L i n) (S n n j)) = S (Datatypes.S n) i j.
Proof.
  intros Hn Hi Hj. unfold Lower, Pivot, Schur.
  rewrite seq_S, !gf256_prod_snoc. simpl "+"%nat.
  pose proof (prod_xy_neq_0 n i ltac:(lia) Hi) as N1.
  pose proof (prod_xy_neq_0 n n ltac:(lia) Hn) as N2.
  pose proof (prod_yx_neq_0 n j ltac:(lia) Hj) as N3.
  pose proof (prod_yx_neq_0 n n ltac:(lia) Hn) as N4.
  pose proof (prod_xx_neq_0 n Hn) as N5.
  pose proof (prod_yy_neq_0 n Hn) as N6.
  pose proof (gadd_neq_0 _ _ (Hxy i j Hi Hj)) as N7.
  pose proof (gadd_neq_0 _ _ (Hxy i n Hi Hn)) as N8.
  pose proof (gadd_neq_0 _ _ (Hxy n j Hn Hj)) as N9.
  pose proof (gadd_neq_0 _ _ (Hxy n n Hn Hn)) as N10.
  pose proof (Hq n Hn) as N11.
  set (PXi := gf256_prod (seq 0 n) (fun t => gadd (x i) (x t))) in *.
  set (PXn := gf256_prod (seq 0 n) (fun t => gadd (x n) (x t))) in *.
  set (PYj := gf256_prod (seq 0 n) (fun t => gadd (y j) (y t))) in *.
  set (PYn := gf256_prod (seq 0 n) (fun t => gadd (y n) (y t))) in *.
  set (Ai := gf256_prod (seq 0 n) (fun t => gadd (x i) (y t))) in *.
  set (An := gf256_prod (seq 0 n) (fun t => gadd (x n) (y t))) in *.
  set (Bj := gf256_prod (seq 0 n) (fun t => gadd (x t) (y j))) in *.
  set (Bn := gf256_prod (seq 0 n) (fun t => gadd (x t) (y n))) in *.
  field. repeat split; assumption.
Qed.

(** The eliminations up to step [n], summed. *)
Lemma Schur_telescope (n i j : nat) :
  (n <= m)%nat -> (i < m)%nat -> (j < m)%nat ->
  gadd (S 0 i j) (gsum (seq 0 n) (fun t => gmul (L i t) (S t t j)))
  = S n i j.
Proof.
  intros Hn Hi Hj. induction n as [|n IH].
  - simpl. apply gadd_0_r.
  - rewrite seq_S, gsum_app. simpl "+"%nat. simpl gsum at 2.
    rewrite gadd_0_r, gadd_assoc, IH by lia.
    apply Schur_step; lia.
Qed.

Lemma Upper_diag (i : nat) : (i < m)%nat -> U i i = x01.
Proof. intros Hi. unfold Upper. apply gdiv_same. now apply Pivot_neq_0. Qed.

Lemma Upper_below (i j : nat) : (j < i)%nat -> U i j = x00.
Proof.
  intros Hj. unfold Upper. rewrite Schur_col_done by exact Hj. apply gdiv_0_l.
Qed.

Lemma Pivot_nonzero_all :
  existsb (fun d => Byte.eqb d x00) (map D (seq 0 m)) = false.
Proof.
  apply not_true_is_false. intros H. apply existsb_exists in H.
  destruct H as (d & Hd & E). apply in_map_iff in Hd.
  destruct Hd as (n & <- & Hn). apply in_seq in Hn.
  apply byte_eqb_eq in E. revert E. apply Pivot_neq_0. lia.
Qed.

End SchurFacts.

(** ** Arrays updated in place *)

Lemma length_upd (A : Type) (l : list A) (i : nat) (v : A) :
  length (upd l i v) = length l.
Proof.
  revert i. induction l as [|a l IH]; intros [|i]; simpl; auto.
Qed.

Lemma nth_upd_same (A : Type) (l : list A) (i : nat) (v d : A) :
  (i < length l)%nat -> nth i (upd l i v) d = v.
Proof.
  revert i. induction l as [|a l IH]; intros [|i] Hi; simpl in *; try lia.
  - reflexivity.
  - apply IH. lia.
Qed.

Lemma nth_upd_other (A : Type) (l : list A) (i j : nat) (v d : A) :
  j <> i -> nth j (upd l i v) d = nth j l d.
Proof.
  revert i j. induction l as [|a l IH]; intros [|i] [|j] Hj; simpl;
    try reflexivity; try lia.
  apply IH. lia.
Qed.

Lemma nth_map_seq (A : Type) (g : nat -> A) (m i : nat) (d : A) :
  (i < m)%nat -> nth i (map g (seq 0 m)) d = g i.
Proof.
  intros Hi.
  rewrite nth_indep with (d' := g 0%nat)
    by (rewrite length_map, length_seq; exact Hi).
  rewrite map_nth, seq_nth by exact Hi. reflexivity.
Qed.

Lemma upd_map_seq (A : Type) (g : nat -> A) (m i : nat) (v d : A) :
  (i < m)%nat ->
  upd (map g (seq 0 m)) i v
  = map (fun t => if Nat.eqb t i then v else g t) (seq 0 m).
Proof.
  intros Hi. apply nth_ext with (d := d) (d' := d).
  - now rewrite length_upd, !length_map.
  - intros j Hj. rewrite length_upd, length_map, length_seq in Hj.
    rewrite (nth_map_seq _ _ m j) by exact Hj.
    destruct (Nat.eqb j i) eqn:E.
    + apply Nat.eqb_eq in E. subst j. apply nth_upd_same.
      now rewrite length_map, length_seq.
    + apply Nat.eqb_neq in E. rewrite nth_upd_other by exact E.
      now apply nth_map_seq.
Qed.

Lemma seq_from (a n : nat) :
  seq a n = map (fun t => (a + t)%nat) (seq 0 n).
Proof.
  revert a. induction n as [|n IH]; intros a; [reflexivity|].
  cbn [seq map]. f_equal; [lia|].
  rewrite (IH (Datatypes.S a)), <- (seq_shift n 0), map_map.
  apply map_ext. intros t. lia.
Qed.

(** ** The solver recovers the unknowns *)

Section SolverCorrect.

Variables x y q : nat -> byte.
Variable m : nat.

Hypothesis Hxy : forall i j, (i < m)%nat -> (j < m)%nat -> x i <> y j.
Hypothesis Hx : forall i j, (i < m)%nat -> (j < m)%nat -> i <> j -> x i <> x j.
Hypothesis Hy : forall i j, (i < m)%nat -> (j < m)%nat -> i <> j -> y i <> y j.
Hypothesis Hq : forall j, (j < m)%nat -> q j <> x00.

(** The unknowns: byte [p] of the [t]-th missing original. *)
Variable xs : nat -> nat -> byte.
Variable bb : Z.

Local Abbreviation S := (Schur x y q).

(** The buffer holding the linear combination of the unknowns with the
    coefficients [c]. *)
Definition LC (c : nat -> byte) : list byte :=
  buffer (Z.to_nat bb)
         (fun p => gsum (seq 0 m) (fun t => gmul (c t) (xs t p))).

(** The [m] buffers whose coefficients are the rows of [coef]. *)
Definition BS (coef : nat -> nat -> byte) : list (list byte) :=
  map (fun i => LC (coef i)) (seq 0 m).

Lemma LC_ext (c c' : nat -> byte) :
  (forall t, (t < m)%nat -> c t = c' t) -> LC c = LC c'.
Proof.
  intros E. unfold LC. apply buffer_ext. intros p _. apply gsum_ext.
  intros t Ht. apply in_seq in Ht. rewrite E by lia. reflexivity.
Qed.

Lemma BS_ext (coef coef' : nat -> nat -> byte) :
  (forall i t, (i < m)%nat -> (t < m)%nat -> coef i t = coef' i t) ->
  BS coef = BS coef'.
Proof.
  intros E. unfold BS. apply map_ext_in. intros i Hi. apply in_seq in Hi.
  apply LC_ext. intros t Ht. apply E; lia.
Qed.

Lemma length_BS (coef : nat -> nat -> byte) : length (BS coef) = m.
Proof. unfold BS. now rewrite length_map, length_seq. Qed.

Lemma nth_BS (coef : nat -> nat -> byte) (i : nat) :
  (i < m)%nat -> nth i (BS coef) [] = LC (coef i).
Proof. intros Hi. unfold BS. now apply nth_map_seq. Qed.

Lemma upd_BS (coef : nat -> nat -> byte) (i : nat) (c : nat -> byte) :
  (i < m)%nat ->
  upd (BS coef) i (LC c) = BS (fun t => if Nat.eqb t i then c else coef t).
Proof.
  intros Hi. unfold BS. rewrite (upd_map_seq _ _ m i _ []) by exact Hi.
  apply map_ext. intros t. now destruct (Nat.eqb t i).
Qed.

Lemma muladd_LC (c c' : nat -> byte) (a : byte) :
  GF256.gf256_muladd_mem ctx0 (LC c) a (LC c') bb
  = LC (fun t => gadd (c t) (gmul a (c' t))).
Proof.
  unfold GF256.gf256_muladd_mem, LC. rewrite mem_loop_buffer.
  apply buffer_ext. intros p _.
  rewrite <- gsum_scale_r, <- gsum_add. apply gsum_ext. intros t _. ring.
Qed.

Lemma div_LC (c : nat -> byte) (d : byte) :
  GF256.gf256_div_mem ctx0 (LC c) (LC c) d bb
  = LC (fun t => gdiv (c t) d).
Proof.
  pose proof (proj1 (gf256_div_mem_inverse_gen (LC c) (LC c) d bb)) as E.
  rewrite E. unfold GF256.gf256_mul_mem, LC. rewrite mem_loop_buffer.
  apply buffer_ext. intros p _.
  rewrite <- gsum_scale_r. apply gsum_ext. intros t _.
  rewrite gdiv_def. ring.
Qed.

(** One row operation of the substitutions: row [i] takes up the rows [js]
    with the coefficients [M i j]. *)
Lemma row_op (M : nat -> nat -> byte) (i : nat) (js : list nat)
      (coef : nat -> nat -> byte) :
  (i < m)%nat ->
  (forall j, In j js -> (j < m)%nat /\ j <> i) ->
  fold_left
    (fun b j =>
       upd b i (GF256.gf256_muladd_mem ctx0 (nth i b []) (M i j)
                                       (nth j b []) bb))
    js (BS coef)
  = BS (fun t =>
          if Nat.eqb t i
          then fun s => gadd (coef i s)
                             (gsum js (fun j => gmul (M i j) (coef j s)))
          else coef t).
Proof.
  intros Hi. revert coef. induction js as [|j js IH]; intros coef Hjs.
  - simpl. apply BS_ext. intros t s _ _.
    destruct (Nat.eqb_spec t i) as [->|_]; [|reflexivity].
    now rewrite gadd_0_r.
  - destruct (Hjs j (or_introl eq_refl)) as [Hj Hji].
    cbn [fold_left]. rewrite !nth_BS, muladd_LC, upd_BS by assumption.
    rewrite IH by (intros j' Hj'; apply Hjs; now right).
    apply BS_ext. intros t s _ _.
    destruct (Nat.eqb_spec t i) as [->|_]; [|reflexivity].
    rewrite Nat.eqb_refl, gsum_cons.
    destruct (Nat.eqb_spec j i) as [E|_]; [contradiction|].
    rewrite <- gadd_assoc. f_equal. f_equal.
    apply gsum_ext. intros j' Hj'.
    destruct (Hjs j' (or_intror Hj')) as [_ Hne].
    destruct (Nat.eqb_spec j' i) as [E|_]; [contradiction|reflexivity].
Qed.

Variables (matrix_L : list (list byte)) (diag_D : list byte)
          (matrix_U : list (list byte)).

Hypothesis HL :
  forall i j, (i < m)%nat -> (j < m)%nat ->
              mat matrix_L i j = Lower x y q i j.
Hypothesis HD : forall i, (i < m)%nat -> nth i diag_D x00 = Pivot x y q i.
Hypothesis HU :
  forall i j, (i < m)%nat -> (j < m)%nat ->
              mat matrix_U i j = Upper x y q i j.

(** The coefficients before the solve (the matrix A), after the forward
    substitution, after the division, and at the end (the identity). *)
Definition coef_A (i t : nat) : byte := S 0 i t.
Definition coef_F (i t : nat) : byte := S i i t.
Definition coef_U (i t : nat) : byte := Upper x y q i t.
Definition coef_I (i t : nat) : byte := if Nat.eqb i t then x01 else x00.

Lemma forward_rows (n : nat) :
  (n <= m)%nat ->
  ForwardSubstitute matrix_L bb n (BS coef_A)
  = BS (fun t => if Nat.ltb t n then coef_F t else coef_A t).
Proof.
  unfold ForwardSubstitute. induction n as [|n IH]; intros Hn.
  - cbn [seq rev fold_left]. apply BS_ext. intros t s _ _.
    destruct (Nat.ltb_spec t 0); [lia | reflexivity].
  - rewrite seq_S, fold_left_app, IH by lia. cbn [Nat.add fold_left].
    rewrite row_op; [|lia|].
    + apply BS_ext. intros t s Ht Hs.
      destruct (Nat.eqb_spec t n) as [->|Hne].
      * rewrite Nat.ltb_irrefl.
        replace (n <? Datatypes.S n)%nat with true
          by (symmetry; apply Nat.ltb_lt; lia).
        unfold coef_A, coef_F.
        rewrite <- (Schur_telescope x y q m Hxy Hx Hy Hq n n s) by lia.
        f_equal. apply gsum_ext. intros j Hj. apply in_seq in Hj.
        replace (j <? n)%nat with true by (symmetry; apply Nat.ltb_lt; lia).
        rewrite HL by lia. reflexivity.
      * destruct (Nat.ltb_spec t n), (Nat.ltb_spec t (Datatypes.S n));
          try reflexivity; lia.
    + intros j Hj. apply in_seq in Hj. lia.
Qed.

Lemma divide_rows (n : nat) :
  (n <= m)%nat ->
  DivideDiagonal diag_D bb n (BS coef_F)
  = BS (fun t => if Nat.ltb t n then coef_U t else coef_F t).
Proof.
  unfold DivideDiagonal. induction n as [|n IH]; intros Hn.
  - cbn [seq rev fold_left]. apply BS_ext. intros t s _ _.
    destruct (Nat.ltb_spec t 0); [lia | reflexivity].
  - rewrite seq_S, fold_left_app, IH by lia. cbn [Nat.add fold_left].
    rewrite !nth_BS, div_LC, upd_BS by lia.
    apply BS_ext. intros t s Ht Hs.
    destruct (Nat.eqb_spec t n) as [->|Hne].
    + rewrite Nat.ltb_irrefl.
      replace (n <? Datatypes.S n)%nat with true
        by (symmetry; apply Nat.ltb_lt; lia).
      rewrite HD by lia. reflexivity.
    + destruct (Nat.ltb_spec t n), (Nat.ltb_spec t (Datatypes.S n));
        try reflexivity; lia.
Qed.

Lemma backward_rows (n : nat) :
  (n <= m)%nat ->
  fold_left
    (fun b i =>
       fold_left
         (fun b j =>
            upd b i (GF256.gf256_muladd_mem ctx0 (nth i b []) (mat matrix_U i j)
                                            (nth j b []) bb))
         (seq (Datatypes.S i) (m - Datatypes.S i)) b)
    (rev (seq 0 n))
    (BS (fun t => if Nat.leb n t then coef_I t else coef_U t))
  = BS coef_I.
Proof.
  induction n as [|n IH]; intros Hn.
  - cbn [seq rev fold_left]. apply BS_ext. intros t s _ _.
    destruct (Nat.leb_spec 0 t); [reflexivity | lia].
  - rewrite seq_S, rev_app_distr. cbn [Nat.add rev app fold_left].
    rewrite row_op; [|lia|].
    + rewrite <- IH by lia. f_equal.
      apply BS_ext. intros t s Ht Hs.
      destruct (Nat.eqb_spec t n) as [->|Hne].
      * rewrite Nat.leb_refl.
        replace (Datatypes.S n <=? n)%nat with false
          by (symmetry; apply Nat.leb_gt; lia).
        rewrite (gsum_ext _ _ (fun j => gmul (coef_U n j) (coef_I j s))).
        2:{ intros j Hj. apply in_seq in Hj.
            replace (Datatypes.S n <=? j)%nat with true
              by (symmetry; apply Nat.leb_le; lia).
            rewrite HU by lia. reflexivity. }
        unfold coef_I, coef_U.
        destruct (Nat.eqb_spec n s) as [<-|Hns].
        -- rewrite gsum_zero.
           ++ rewrite gadd_0_r. now apply (Upper_diag x y q m).
           ++ intros j Hj. apply in_seq in Hj.
              destruct (Nat.eqb_spec j n) as [E|_]; [lia|]. ring.
        -- destruct (Nat.ltb_spec s n) as [Hlt|Hge].
           ++ rewrite (Upper_below x y q n s) by exact Hlt.
              rewrite gsum_zero; [ring|].
              intros j Hj. apply in_seq in Hj.
              destruct (Nat.eqb_spec j s) as [E|_]; [lia|]. ring.
           ++ rewrite seq_from, gsum_map.
              rewrite (gsum_single _ (s - Datatypes.S n)) by
                  first [ lia
                        | intros t' Ht' Hts;
                          destruct (Nat.eqb_spec (Datatypes.S n + t') s);
                          [lia|ring] ].
              replace (Datatypes.S n + (s - Datatypes.S n))%nat with s by lia.
              rewrite Nat.eqb_refl. ring.
      * destruct (Nat.leb_spec n t), (Nat.leb_spec (Datatypes.S n) t);
          try reflexivity; lia.
    + intros j Hj. apply in_seq in Hj. lia.
Qed.

(** The identity coefficients give the unknowns themselves. *)
Lemma BS_identity :
  BS coef_I = map (fun i => buffer (Z.to_nat bb) (xs i)) (seq 0 m).
Proof.
  unfold BS. apply map_ext_in. intros i Hi. apply in_seq in Hi.
  unfold LC. apply buffer_ext. intros p _.
  rewrite (gsum_single m i) by
      first [ lia
            | intros t' Ht' Hti; unfold coef_I;
              destruct (Nat.eqb_spec i t'); [congruence|ring] ].
  unfold coef_I. rewrite Nat.eqb_refl. ring.
Qed.

(** The three phases of the solve turn the right-hand sides [A * xs] into
    the unknowns. *)
Lemma solve_correct :
  BackSubstitute matrix_U bb m
    (DivideDiagonal diag_D bb m
       (ForwardSubstitute matrix_L bb m (BS coef_A)))
  = map (fun i => buffer (Z.to_nat bb) (xs i)) (seq 0 m).
Proof.
  rewrite forward_rows by lia.
  rewrite (BS_ext _ coef_F).
  2:{ intros i t Hi _. now replace (i <? m)%nat with true
        by (symmetry; apply Nat.ltb_lt; lia). }
  rewrite divide_rows by lia.
  rewrite (BS_ext _ (fun t => if Nat.leb m t then coef_I t else coef_U t)).
  2:{ intros i t Hi _.
      replace (i <? m)%nat with true by (symmetry; apply Nat.ltb_lt; lia).
      now replace (m <=? i)%nat with false
        by (symmetry; apply Nat.leb_gt; lia). }
  unfold BackSubstitute. rewrite backward_rows by lia.
  apply BS_identity.
Qed.

End SolverCorrect.

(** ** Loops of bulk operations *)

Section BulkLoops.

Context {A : Type}.
Variable bb : Z.
Variable V : A -> list byte.
Variable g : A -> nat -> byte.

Lemma fold_add_mem (js : list A) (a : nat -> byte) :
  (forall j, In j js -> V j = buffer (Z.to_nat bb) (g j)) ->
  fold_left (fun R j => GF256.gf256_add_mem R (V j) bb) js
            (buffer (Z.to_nat bb) a)
  = buffer (Z.to_nat bb) (fun p => gadd (a p) (gsum js (fun j => g j p))).
Proof.
  revert a. induction js as [|j js IH]; intros a HV.
  - cbn [fold_left]. apply buffer_ext. intros p _. cbn [gsum fold_right].
    now rewrite gadd_0_r.
  - cbn [fold_left]. rewrite (HV j) by now left.
    unfold GF256.gf256_add_mem at 2. rewrite mem_loop_buffer.
    rewrite IH by (intros j' Hj'; apply HV; now right).
    apply buffer_ext. intros p _. rewrite gsum_cons. apply eq_sym, gadd_assoc.
Qed.

Lemma fold_muladd_mem (c : A -> byte) (js : list A) (a : nat -> byte) :
  (forall j, In j js -> V j = buffer (Z.to_nat bb) (g j)) ->
  fold_left (fun R j => GF256.gf256_muladd_mem ctx0 R (c j) (V j) bb) js
            (buffer (Z.to_nat bb) a)
  = buffer (Z.to_nat bb)
           (fun p => gadd (a p) (gsum js (fun j => gmul (c j) (g j p)))).
Proof.
  revert a. induction js as [|j js IH]; intros a HV.
  - cbn [fold_left]. apply buffer_ext. intros p _. cbn [gsum fold_right].
    now rewrite gadd_0_r.
  - cbn [fold_left]. rewrite (HV j) by now left.
    unfold GF256.gf256_muladd_mem at 2. rewrite mem_loop_buffer.
    rewrite IH by (intros j' Hj'; apply HV; now right).
    apply buffer_ext. intros p _. rewrite gsum_cons. ring.
Qed.

End BulkLoops.

Lemma memcpy_buffer (n : Z) (vz : list byte) (h : nat -> byte) :
  length vz = Z.to_nat n ->
  GF256.memcpy vz (buffer (Z.to_nat n) h) n = buffer (Z.to_nat n) h.
Proof.
  intros Hz. rewrite (buffer_of_list vz), Hz.
  unfold GF256.memcpy. apply mem_loop_buffer.
Qed.

Lemma mul_mem_buffer (n : Z) (vz : list byte) (h : nat -> byte) (c : byte) :
  length vz = Z.to_nat n ->
  GF256.gf256_mul_mem ctx0 vz (buffer (Z.to_nat n) h) c n
  = buffer (Z.to_nat n) (fun p => gmul c (h p)).
Proof.
  intros Hz. rewrite (buffer_of_list vz), Hz.
  unfold GF256.gf256_mul_mem. rewrite mem_loop_buffer.
  apply buffer_ext. intros p _. apply gmul_comm.
Qed.

(** ** Blocks laid end to end *)

Lemma chunk_flat_map (n r : nat) (f : nat -> list byte) (rest : list byte)
      (i : nat) :
  (forall t, length (f t) = n) -> (i < r)%nat ->
  chunk n (flat_map f (seq 0 r) ++ rest) i = f i.
Proof.
  intros Hf Hi. unfold chunk.
  assert (E : flat_map f (seq 0 r) ++ rest
              = flat_map f (seq 0 i) ++ f i
                ++ (flat_map f (seq (S i) (r - S i)) ++ rest)).
  { replace (seq 0 r) with (seq 0 i ++ i :: seq (S i) (r - S i)).
    - rewrite flat_map_app. cbn [flat_map]. now rewrite <- !app_assoc.
    - change (i :: seq (S i) (r - S i)) with (seq i (S (r - S i))).
      rewrite <- seq_app. f_equal. lia. }
  rewrite E.
  rewrite skipn_app, skipn_all2
    by (rewrite (length_flat_rows _ _ f n), length_seq by exact Hf; lia).
  rewrite (length_flat_rows _ _ f n), length_seq by exact Hf.
  rewrite Nat.sub_diag. cbn [skipn app].
  rewrite firstn_app, <- (Hf i), firstn_all, Nat.sub_diag. cbn [firstn].
  apply app_nil_r.
Qed.

Lemma length_chunk (n r : nat) (buf : list byte) (i : nat) :
  length buf = (r * n)%nat -> (i < r)%nat -> length (chunk n buf i) = n.
Proof.
  intros Hb Hi. unfold chunk. rewrite length_firstn, length_skipn, Hb. nia.
Qed.

(** ** The encoder *)

Section EncoderFacts.

Variables X Y : Z -> byte.
Variable params : EncoderParams.
Variable originals : list DataBlock.

Local Abbreviation k := (OriginalCount params).
Local Abbreviation r := (RecoveryCount params).
Local Abbreviation bb := (BlockBytes params).

Hypothesis Hvalid : valid_params params.
Hypothesis Hlen : length originals = Z.to_nat k.
Hypothesis Hblocks :
  forall j, (j < Z.to_nat k)%nat ->
            length (Block (block_at originals j)) = Z.to_nat bb.

(** Byte [p] of original [j]. *)
Definition original_byte (j p : nat) : byte :=
  nth p (Block (block_at originals j)) x00.

Lemma original_buffer (j : nat) :
  (j < Z.to_nat k)%nat ->
  Block (block_at originals j) = buffer (Z.to_nat bb) (original_byte j).
Proof.
  intros Hj. rewrite (buffer_of_list (Block (block_at originals j))) at 1.
  now rewrite Hblocks.
Qed.

Lemma seq_split_first (n : nat) :
  (0 < n)%nat -> seq 0 n = 0%nat :: seq 1 (n - 1).
Proof.
  intros Hn. destruct n; [lia|].
  now replace (S n - 1)%nat with n by lia.
Qed.

(** Recovery block 0 is the sum of the originals. *)
Lemma EncodeOneDataBlock_first (rb : list byte) :
  length rb = Z.to_nat bb ->
  EncodeOneDataBlock X Y params originals k rb
  = buffer (Z.to_nat bb)
           (fun p => gsum (seq 0 (Z.to_nat k)) (fun j => original_byte j p)).
Proof.
  intros Hrb. destruct Hvalid as (Hk & _).
  unfold EncodeOneDataBlock. rewrite Z.sub_diag. cbn [Z.eqb].
  rewrite (original_buffer 0) by lia.
  rewrite memcpy_buffer by exact Hrb.
  rewrite (fold_add_mem bb _ original_byte).
  - apply buffer_ext. intros p _.
    rewrite (seq_split_first (Z.to_nat k)) by lia. reflexivity.
  - intros j Hj. apply in_seq in Hj. apply original_buffer. lia.
Qed.

(** Recovery block [i >= 1] is the combination with row [i] of the matrix. *)
Lemma EncodeOneDataBlock_other (i : Z) (rb : list byte) :
  i <> 0 ->
  length rb = Z.to_nat bb ->
  EncodeOneDataBlock X Y params originals (k + i) rb
  = buffer (Z.to_nat bb)
           (fun p => gsum (seq 0 (Z.to_nat k))
                          (fun j => gmul (GetMatrixElement X Y i (Z.of_nat j))
                                         (original_byte j p))).
Proof.
  intros Hi Hrb. destruct Hvalid as (Hk & _).
  unfold EncodeOneDataBlock.
  replace (k + i - k) with i by lia.
  destruct (i =? 0) eqn:E; [apply Z.eqb_eq in E; contradiction|].
  rewrite (original_buffer 0) by lia.
  rewrite mul_mem_buffer by exact Hrb.
  rewrite (fold_muladd_mem bb _ original_byte
             (fun j => GetMatrixElement X Y i (Z.of_nat j))).
  - apply buffer_ext. intros p _.
    rewrite (seq_split_first (Z.to_nat k)) by lia. reflexivity.
  - intros j Hj. apply in_seq in Hj. apply original_buffer. lia.
Qed.

Lemma length_EncodeOneDataBlock (idx : Z) (rb : list byte) :
  length (EncodeOneDataBlock X Y params originals idx rb) = length rb.
Proof.
  unfold EncodeOneDataBlock.
  destruct (idx - k =? 0).
  - generalize (seq 1 (Z.to_nat k - 1)).
    assert (H : length (GF256.memcpy rb (Block (block_at originals 0)) bb)
                = length rb) by apply length_mem_loop.
    revert H. generalize (GF256.memcpy rb (Block (block_at originals 0)) bb).
    intros R HR l. revert R HR.
    induction l as [|j l IH]; intros R HR; cbn [fold_left]; [exact HR|].
    apply IH. unfold GF256.gf256_add_mem. now rewrite length_mem_loop.
  - generalize (seq 1 (Z.to_nat k - 1)).
    assert (H : length (GF256.gf256_mul_mem ctx0 rb
                          (Block (block_at originals 0))
                          (GetMatrixElement X Y (idx - k) 0) bb)
                = length rb) by apply length_mem_loop.
    revert H.
    generalize (GF256.gf256_mul_mem ctx0 rb (Block (block_at originals 0))
                  (GetMatrixElement X Y (idx - k) 0) bb).
    intros R HR l. revert R HR.
    induction l as [|j l IH]; intros R HR; cbn [fold_left]; [exact HR|].
    apply IH. unfold GF256.gf256_muladd_mem. now rewrite length_mem_loop.
Qed.

(** [Encode] succeeds, and block [i] of its output is the encoding of
    recovery [i]. *)
Lemma Encode_chunk (rbs : list byte) (i : nat) :
  length rbs = (Z.to_nat r * Z.to_nat bb)%nat ->
  (i < Z.to_nat r)%nat ->
  fst (Encode X Y params originals rbs) = Ok
  /\ chunk (Z.to_nat bb) (snd (Encode X Y params originals rbs)) i
     = EncodeOneDataBlock X Y params originals (k + Z.of_nat i)
                          (chunk (Z.to_nat bb) rbs i).
Proof.
  intros Hrbs Hi. unfold Encode.
  rewrite (proj1 (valid_params_ok params) Hvalid). cbn [negb fst snd].
  split; [reflexivity|].
  set (f := fun t => EncodeOneDataBlock X Y params originals (k + Z.of_nat t)
                       (chunk (Z.to_nat bb) rbs t)).
  assert (E : flat_map f (seq 0 (Z.to_nat r))
              = flat_map (fun t => if (t <? Z.to_nat r)%nat then f t
                                   else repeat x00 (Z.to_nat bb))
                         (seq 0 (Z.to_nat r))).
  { rewrite !flat_map_concat_map. f_equal. apply map_ext_in.
    intros t Ht. apply in_seq in Ht.
    now replace (t <? Z.to_nat r)%nat with true
      by (symmetry; apply Nat.ltb_lt; lia). }
  rewrite E, chunk_flat_map.
  - now replace (i <? Z.to_nat r)%nat with true
      by (symmetry; apply Nat.ltb_lt; lia).
  - intros t. destruct (Nat.ltb_spec t (Z.to_nat r)).
    + unfold f. rewrite length_EncodeOneDataBlock.
      now apply (length_chunk _ (Z.to_nat r)).
    + apply repeat_length.
  - exact Hi.
Qed.

End EncoderFacts.

(** ** The initialization phase *)

Lemma existsb_eqb_In (j : Z) (l : list Z) :
  existsb (Z.eqb j) l = true <-> In j l.
Proof.
  rewrite existsb_exists. split.
  - intros (a & Ha & E). apply Z.eqb_eq in E. now subst.
  - intros H. exists j. split; [exact H | apply Z.eqb_refl].
Qed.

Lemma distinct_NoDup (l : list Z) : distinct l = true <-> NoDup l.
Proof.
  induction l as [|a l IH]; cbn [distinct].
  - split; [constructor | reflexivity].
  - rewrite andb_true_iff, negb_true_iff, IH. split.
    + intros [Ha Hl]. constructor; [|exact Hl].
      intros Hin. apply existsb_eqb_In in Hin. congruence.
    + intros H. inversion H as [|? ? Ha Hl]; subst. split; [|exact Hl].
      apply not_true_is_false. intros E. apply Ha. now apply existsb_eqb_In.
Qed.

Lemma NoDup_zrange (n : nat) : NoDup (zrange n).
Proof.
  unfold zrange. apply Injective_map_NoDup; [|apply seq_NoDup].
  intros a b. apply Nat2Z.inj.
Qed.

Lemma blocks_by_position (blocks : list DataBlock) :
  blocks = map (block_at blocks) (seq 0 (length blocks)).
Proof.
  apply nth_ext with (d := block_at blocks (length blocks))
                     (d' := block_at blocks (length blocks)).
  - now rewrite length_map, length_seq.
  - intros p Hp. rewrite (nth_map_seq _ _ (length blocks) p) by exact Hp.
    unfold block_at. apply nth_indep. exact Hp.
Qed.

Lemma block_at_In (blocks : list DataBlock) (p : nat) :
  (p < length blocks)%nat -> In (block_at blocks p) blocks.
Proof. intros Hp. unfold block_at. now apply nth_In. Qed.

Lemma In_block_at (blocks : list DataBlock) (b : DataBlock) :
  In b blocks -> exists p, (p < length blocks)%nat /\ block_at blocks p = b.
Proof.
  intros Hb. destruct (In_nth _ _ {| Block := []; Index := x00 |} Hb)
    as (p & Hp & E).
  exists p. split; assumption.
Qed.

Section InitializeFacts.

Variable params : EncoderParams.
Variable blocks : list DataBlock.

Local Abbreviation k := (OriginalCount params).
Local Abbreviation r := (RecoveryCount params).

(** The original positions missing from the supplied blocks, in order. *)
Definition erasures : list Z :=
  filter (fun j => negb (existsb (Z.eqb j) (map block_index blocks)))
         (zrange (Z.to_nat k)).

(** The supplied blocks that carry a recovery index, and those that carry
    an original index, in the order of the array. *)
Definition recoveries : list DataBlock :=
  filter (fun b => k <=? block_index b) blocks.

Definition survivors : list DataBlock :=
  filter (fun b => block_index b <? k) blocks.

Definition recovery_positions : list nat :=
  filter (fun p => k <=? block_index (block_at blocks p))
         (seq 0 (length blocks)).

Definition original_positions : list nat :=
  filter (fun p => block_index (block_at blocks p) <? k)
         (seq 0 (length blocks)).

Lemma Initialize_state :
  snd (Initialize params blocks)
  = {| Params := params;
       Recovery := recovery_positions;
       Original := original_positions;
       ErasuresIndices := erasures |}.
Proof.
  unfold Initialize.
  destruct (negb (Z.of_nat (length blocks) =? k)); [reflexivity|].
  destruct (existsb _ _); [reflexivity|].
  destruct (negb (distinct _)); [reflexivity|].
  cbn [ErasuresIndices].
  match goal with
  | |- snd (match ?e with [] => (_, ?s) | _ :: _ => _ end) = _ =>
      transitivity s; [now destruct e | reflexivity]
  end.
Qed.

Lemma map_recovery_positions :
  map (block_at blocks) recovery_positions = recoveries.
Proof.
  unfold recovery_positions, recoveries.
  rewrite (blocks_by_position blocks) at 3. now rewrite filter_map_swap.
Qed.

Lemma map_original_positions :
  map (block_at blocks) original_positions = survivors.
Proof.
  unfold original_positions, survivors.
  rewrite (blocks_by_position blocks) at 3. now rewrite filter_map_swap.
Qed.

Lemma length_recovery_positions :
  length recovery_positions = length recoveries.
Proof. now rewrite <- map_recovery_positions, length_map. Qed.

Lemma in_erasures (e : Z) :
  In e erasures <-> 0 <= e < k /\ ~ In e (map block_index blocks).
Proof.
  unfold erasures. rewrite filter_In, in_zrange, negb_true_iff.
  rewrite <- existsb_eqb_In.
  split; intros [H1 H2]; (split; [lia|]).
  - now rewrite H2.
  - now apply not_true_is_false.
Qed.

Lemma NoDup_erasures : NoDup erasures.
Proof. apply NoDup_filter, NoDup_zrange. Qed.

Lemma in_survivors (b : DataBlock) :
  In b survivors <-> In b blocks /\ block_index b < k.
Proof. unfold survivors. rewrite filter_In. now rewrite Z.ltb_lt. Qed.

Lemma in_recoveries (b : DataBlock) :
  In b recoveries <-> In b blocks /\ k <= block_index b.
Proof. unfold recoveries. rewrite filter_In. now rewrite Z.leb_le. Qed.

Lemma block_index_nonneg (b : DataBlock) : 0 <= block_index b < 256.
Proof. apply Z_of_byte_range. Qed.

(** The surviving original indices and the erasures make up [0 .. k-1]. *)
Lemma survivors_erasures_perm :
  NoDup (map block_index blocks) ->
  Permutation (map block_index survivors ++ erasures) (zrange (Z.to_nat k)).
Proof.
  intros Hnd. apply NoDup_Permutation.
  - apply NoDup_app.
    + unfold survivors.
      rewrite <- (filter_map_swap (fun i => i <? k) block_index).
      now apply NoDup_filter.
    + apply NoDup_erasures.
    + intros a Ha He. apply in_erasures in He. destruct He as [_ He].
      apply He. apply in_map_iff in Ha. destruct Ha as (b & <- & Hb).
      apply in_survivors in Hb. apply in_map. tauto.
  - apply NoDup_zrange.
  - intros j. rewrite in_app_iff, in_zrange, in_erasures, in_map_iff. split.
    + intros [(b & <- & Hb)|[Hj _]]; [|lia].
      apply in_survivors in Hb. pose proof (block_index_nonneg b). lia.
    + intros Hj.
      destruct (existsb (Z.eqb j) (map block_index blocks)) eqn:E.
      * left. apply existsb_eqb_In, in_map_iff in E.
        destruct E as (b & <- & Hb). exists b. split; [reflexivity|].
        apply in_survivors. split; [exact Hb | lia].
      * right. split; [lia|]. intros Hin. apply existsb_eqb_In in Hin.
        congruence.
Qed.

(** As many erasures as recoveries, when exactly [k] distinct blocks are
    supplied. *)
Lemma erasures_count :
  Z.of_nat (length blocks) = k ->
  NoDup (map block_index blocks) ->
  length erasures = length recoveries.
Proof.
  intros Hlen Hnd.
  pose proof (Permutation_length (survivors_erasures_perm Hnd)) as HP.
  rewrite length_app, length_map, length_zrange in HP.
  pose proof (filter_length (fun b => block_index b <? k) blocks) as HF.
  fold survivors in HF.
  rewrite (filter_ext _ (fun b => k <=? block_index b)) in HF
    by (intros b; destruct (Z.ltb_spec (block_index b) k),
                           (Z.leb_spec k (block_index b));
        try reflexivity; lia).
  fold recoveries in HF. lia.
Qed.

Lemma Initialize_true_iff :
  fst (Initialize params blocks) = true
  <-> Z.of_nat (length blocks) = k
      /\ (forall b, In b blocks -> block_index b < k + r)
      /\ NoDup (map block_index blocks).
Proof.
  unfold Initialize.
  destruct (Z.eqb_spec (Z.of_nat (length blocks)) k) as [Hlen|Hlen];
    cbn [negb]; [|split; [discriminate | tauto]].
  destruct (existsb (fun row => k + r <=? row) (map block_index blocks))
    eqn:Hrange.
  { split; [discriminate|]. intros (_ & Hin & _). exfalso.
    apply existsb_exists in Hrange. destruct Hrange as (a & Ha & Hle).
    apply in_map_iff in Ha. destruct Ha as (b & <- & Hb).
    specialize (Hin b Hb). lia. }
  assert (Hin : forall b, In b blocks -> block_index b < k + r).
  { intros b Hb. destruct (Z.ltb_spec (block_index b) (k + r)); [assumption|].
    exfalso.
    assert (E : existsb (fun row => k + r <=? row) (map block_index blocks)
                = true).
    { apply existsb_exists. exists (block_index b). split.
      - now apply in_map.
      - now apply Z.leb_le. }
    congruence. }
  destruct (distinct (map block_index blocks)) eqn:Hd; cbn [negb].
  2:{ split; [discriminate|]. intros (_ & _ & Hnd).
      apply distinct_NoDup in Hnd. congruence. }
  apply distinct_NoDup in Hd.
  pose proof (erasures_count Hlen Hd) as Hc.
  cbn [ErasuresIndices Recovery fst].
  fold erasures. fold recovery_positions.
  rewrite length_recovery_positions, <- Hc.
  destruct erasures; cbn [fst]; [tauto|].
  rewrite Z.eqb_refl. tauto.
Qed.

End InitializeFacts.

Lemma Initialize_eq (params : EncoderParams) (blocks : list DataBlock) :
  Initialize params blocks
  = (fst (Initialize params blocks),
     {| Params := params;
        Recovery := recovery_positions params blocks;
        Original := original_positions params blocks;
        ErasuresIndices := erasures params blocks |}).
Proof. rewrite <- Initialize_state. apply surjective_pairing. Qed.

(** ** Storing the solution back *)

Lemma length_StoreBack (blocks : list DataBlock) (ps : list nat)
      (b : list (list byte)) (idx : list Z) :
  length (StoreBack blocks ps b idx) = length blocks.
Proof.
  revert blocks b idx.
  induction ps as [|p ps IH]; intros blocks [|buf b] [|e idx];
    cbn [StoreBack]; try reflexivity.
  now rewrite IH, length_upd.
Qed.

Lemma StoreBack_other (blocks : list DataBlock) (ps : list nat)
      (b : list (list byte)) (idx : list Z) (p : nat) :
  ~ In p ps ->
  block_at (StoreBack blocks ps b idx) p = block_at blocks p.
Proof.
  revert blocks b idx.
  induction ps as [|p' ps IH]; intros blocks [|buf b] [|e idx] Hp;
    cbn [StoreBack]; try reflexivity.
  rewrite IH by (intros H; apply Hp; now right).
  unfold block_at. apply nth_upd_other. intros ->. apply Hp. now left.
Qed.

Lemma StoreBack_at (blocks : list DataBlock) (ps : list nat)
      (b : list (list byte)) (idx : list Z) (i : nat) :
  NoDup ps ->
  (forall p, In p ps -> (p < length blocks)%nat) ->
  length b = length ps -> length idx = length ps ->
  (i < length ps)%nat ->
  block_at (StoreBack blocks ps b idx) (nth i ps 0%nat)
  = {| Block := nth i b []; Index := byte_of_Z (nth i idx 0) |}.
Proof.
  revert blocks b idx i.
  induction ps as [|p ps IH]; intros blocks [|buf b] [|e idx] i Hnd Hlt Hb Hi Hi';
    cbn [length] in *; try lia.
  inversion Hnd as [|? ? Hp Hps]; subst. cbn [StoreBack].
  destruct i as [|i]; cbn [nth].
  - rewrite StoreBack_other by exact Hp.
    unfold block_at. apply nth_upd_same. apply Hlt. now left.
  - apply IH; try lia; try assumption.
    intros p' Hp'. rewrite length_upd. apply Hlt. now right.
Qed.

Lemma mat_rows (f : nat -> nat -> byte) (m i j : nat) :
  (i < m)%nat -> (j < m)%nat ->
  mat (map (fun a => map (fun c => f a c) (seq 0 m)) (seq 0 m)) i j = f i j.
Proof.
  intros Hi Hj. unfold mat.
  rewrite (nth_map_seq _ _ m i) by exact Hi.
  now rewrite (nth_map_seq _ _ m j) by exact Hj.
Qed.

Lemma div_mem_buffer (n : Z) (h : nat -> byte) (d : byte) :
  GF256.gf256_div_mem ctx0 (buffer (Z.to_nat n) h) (buffer (Z.to_nat n) h) d n
  = buffer (Z.to_nat n) (fun p => gdiv (h p) d).
Proof.
  rewrite (proj1 (gf256_div_mem_inverse_gen _ _ d n)).
  unfold GF256.gf256_mul_mem. rewrite mem_loop_buffer.
  apply buffer_ext. intros p _. now rewrite gdiv_def.
Qed.

Section Positions.

Variable params : EncoderParams.
Variable blocks : list DataBlock.

Local Abbreviation k := (OriginalCount params).

Lemma in_recovery_positions (p : nat) :
  In p (recovery_positions params blocks)
  <-> (p < length blocks)%nat /\ k <= block_index (block_at blocks p).
Proof.
  unfold recovery_positions. rewrite filter_In, in_seq, Z.leb_le. lia.
Qed.

Lemma NoDup_recovery_positions : NoDup (recovery_positions params blocks).
Proof. apply NoDup_filter, seq_NoDup. Qed.

Lemma nth_recovery_position (i : nat) :
  (i < length (recovery_positions params blocks))%nat ->
  In (block_at blocks (nth i (recovery_positions params blocks) 0%nat))
     (recoveries params blocks).
Proof.
  intros Hi. rewrite <- map_recovery_positions. apply in_map.
  now apply nth_In.
Qed.

(** Distinct positions hold distinct indices. *)
Lemma block_index_inj (p p' : nat) :
  NoDup (map block_index blocks) ->
  (p < length blocks)%nat -> (p' < length blocks)%nat ->
  block_index (block_at blocks p) = block_index (block_at blocks p') ->
  p = p'.
Proof.
  intros Hnd Hp Hp' E.
  apply (proj1 (NoDup_nth (map block_index blocks) 0) Hnd);
    rewrite ?length_map; try assumption.
  assert (H : forall t, (t < length blocks)%nat ->
                        nth t (map block_index blocks) 0
                        = block_index (block_at blocks t)).
  { intros t Ht.
    rewrite nth_indep with (d' := block_index {| Block := []; Index := x00 |})
      by (rewrite length_map; exact Ht).
    apply map_nth. }
  now rewrite !H by assumption.
Qed.

End Positions.

(** ** Decoding a stripe *)

(** The requirement of the spec on the Cauchy points: the [X i] of the
    recovery rows and the [Y j] of the originals are pairwise distinct. *)
Definition cauchy_points (X Y : Z -> byte) (params : EncoderParams) : Prop :=
  (forall i j, 0 <= i < RecoveryCount params ->
               0 <= j < OriginalCount params -> X i <> Y j)
  /\ (forall i i', 0 <= i < RecoveryCount params ->
                   0 <= i' < RecoveryCount params -> i <> i' -> X i <> X i')
  /\ (forall j j', 0 <= j < OriginalCount params ->
                   0 <= j' < OriginalCount params -> j <> j' -> Y j <> Y j').

(** A block of the stripe encoded from [originals] into [recoveryBlocks]:
    original [j] with index [j], or recovery [i] with index [k + i]. *)
Definition stripe_block (X Y : Z -> byte) (params : EncoderParams)
           (originals : list DataBlock) (recoveryBlocks : list byte)
           (b : DataBlock) : Prop :=
  (block_index b < OriginalCount params
   /\ Block b = Block (block_at originals (Z.to_nat (block_index b))))
  \/ (OriginalCount params <= block_index b
                           < OriginalCount params + RecoveryCount params
      /\ Block b
         = chunk (Z.to_nat (BlockBytes params))
                 (snd (Encode X Y params originals recoveryBlocks))
                 (Z.to_nat (block_index b - OriginalCount params))).

Lemma fold_left_ext_in (A B : Type) (f g : A -> B -> A) (l : list B) (a : A) :
  (forall acc b, In b l -> f acc b = g acc b) ->
  fold_left f l a = fold_left g l a.
Proof.
  revert a. induction l as [|b l IH]; intros a H; [reflexivity|].
  cbn [fold_left]. rewrite (H a b) by now left.
  apply IH. intros acc b' Hb'. apply H. now right.
Qed.

Lemma list_by_position (A : Type) (l : list A) (d : A) :
  l = map (fun i => nth i l d) (seq 0 (length l)).
Proof.
  apply nth_ext with (d := d) (d' := d).
  - now rewrite length_map, length_seq.
  - intros p Hp. now rewrite (nth_map_seq _ _ (length l) p).
Qed.

Lemma gsum_by_position (l : list Z) (f : Z -> byte) :
  gsum l f = gsum (seq 0 (length l)) (fun t => f (nth t l 0)).
Proof. rewrite (list_by_position _ l 0) at 1. apply gsum_map. Qed.

Lemma add_mem_muladd (vz vx : list byte) (n : Z) :
  GF256.gf256_add_mem vz vx n = GF256.gf256_muladd_mem ctx0 vz x01 vx n.
Proof.
  unfold GF256.gf256_add_mem, GF256.gf256_muladd_mem. apply mem_loop_ext.
  intros z x. now rewrite gmul_1_r.
Qed.

Section DecoderFacts.

Variables X Y : Z -> byte.
Variable params : EncoderParams.
Variable originals : list DataBlock.
Variable rbs : list byte.
Variable blocks : list DataBlock.

Local Abbreviation k := (OriginalCount params).
Local Abbreviation r := (RecoveryCount params).
Local Abbreviation bb := (BlockBytes params).
Local Abbreviation C := (GetMatrixElement X Y).
Local Abbreviation E := (erasures params blocks).

Hypothesis Hvalid : valid_params params.
Hypothesis Hlen : length originals = Z.to_nat k.
Hypothesis Hblocks :
  forall j, (j < Z.to_nat k)%nat ->
            length (Block (block_at originals j)) = Z.to_nat bb.
Hypothesis Hrbs : length rbs = (Z.to_nat r * Z.to_nat bb)%nat.
Hypothesis Hpoints : cauchy_points X Y params.
Hypothesis Hcount : Z.of_nat (length blocks) = k.
Hypothesis Hnd : NoDup (map block_index blocks).
Hypothesis Hstripe :
  forall b, In b blocks -> stripe_block X Y params originals rbs b.

(** Byte [p] of the original with index [j]. *)
Definition ob (j : Z) (p : nat) : byte :=
  original_byte originals (Z.to_nat j) p.

Lemma ob_buffer (j : Z) :
  0 <= j < k ->
  Block (block_at originals (Z.to_nat j)) = buffer (Z.to_nat bb) (ob j).
Proof.
  intros Hj. apply (original_buffer params originals Hblocks). lia.
Qed.

Lemma C_row0 (j : Z) : 0 <= j < k -> C 0 j = x01.
Proof.
  intros Hj. destruct Hvalid as (_ & Hr & _). destruct Hpoints as (HXY & _).
  unfold GetMatrixElement. apply gdiv_same, gadd_neq_0, HXY; lia.
Qed.

Lemma C_neq_0 (i j : Z) : 0 <= i < r -> 0 <= j < k -> C i j <> x00.
Proof.
  intros Hi Hj. destruct Hvalid as (_ & Hr & _). destruct Hpoints as (HXY & _).
  unfold GetMatrixElement.
  apply gdiv_neq_0; apply gadd_neq_0, HXY; lia.
Qed.

(** A recovery block of the stripe is the combination of the originals
    with its row of the matrix. *)
Lemma recovery_buffer (i : Z) :
  0 <= i < r ->
  chunk (Z.to_nat bb) (snd (Encode X Y params originals rbs)) (Z.to_nat i)
  = buffer (Z.to_nat bb)
           (fun p => gsum (zrange (Z.to_nat k))
                          (fun j => gmul (C i j) (ob j p))).
Proof.
  intros Hi.
  destruct (Encode_chunk X Y params originals Hvalid Hlen rbs (Z.to_nat i)
                         Hrbs ltac:(lia)) as [_ ->].
  rewrite Z2Nat.id by lia.
  assert (Hrb : length (chunk (Z.to_nat bb) rbs (Z.to_nat i)) = Z.to_nat bb)
    by (apply (length_chunk _ (Z.to_nat r)); [exact Hrbs | lia]).
  destruct (Z.eq_dec i 0) as [->|Hi0].
  - rewrite Z.add_0_r.
    rewrite (EncodeOneDataBlock_first X Y params originals Hvalid Hlen Hblocks)
      by exact Hrb.
    apply buffer_ext. intros p _. unfold zrange. rewrite gsum_map.
    apply gsum_ext. intros j Hj. apply in_seq in Hj.
    rewrite C_row0 by lia. unfold ob. rewrite Nat2Z.id. ring.
  - rewrite (EncodeOneDataBlock_other X Y params originals Hvalid Hlen Hblocks)
      by assumption.
    apply buffer_ext. intros p _. unfold zrange. rewrite gsum_map.
    apply gsum_ext. intros j Hj. unfold ob. now rewrite Nat2Z.id.
Qed.

Lemma survivor_buffer (O : DataBlock) :
  In O (survivors params blocks) ->
  0 <= block_index O < k
  /\ Block O = buffer (Z.to_nat bb) (ob (block_index O)).
Proof.
  intros HO. apply in_survivors in HO. destruct HO as [HO Hlt].
  pose proof (block_index_nonneg O) as Hge.
  split; [lia|].
  destruct (Hstripe O HO) as [[_ ->]|[Hr _]]; [|lia].
  apply ob_buffer. lia.
Qed.

Lemma recovery_block_buffer (b : DataBlock) :
  In b (recoveries params blocks) ->
  0 <= block_index b - k < r
  /\ Block b
     = buffer (Z.to_nat bb)
              (fun p => gsum (zrange (Z.to_nat k))
                             (fun j => gmul (C (block_index b - k) j)
                                            (ob j p))).
Proof.
  intros Hb. apply in_recoveries in Hb. destruct Hb as [Hb Hge].
  destruct (Hstripe b Hb) as [[Hlt _]|[Hr ->]]; [lia|].
  split; [lia|]. apply recovery_buffer. lia.
Qed.

(** The right-hand side: once the surviving originals are taken out of a
    recovery block, the combination of the missing originals is left. *)
Lemma rhs_muladd (b : DataBlock) :
  In b (recoveries params blocks) ->
  fold_left
    (fun acc O =>
       GF256.gf256_muladd_mem ctx0 acc (C (block_index b - k) (block_index O))
                              (Block O) bb)
    (survivors params blocks) (Block b)
  = buffer (Z.to_nat bb)
           (fun p => gsum E (fun e => gmul (C (block_index b - k) e)
                                           (ob e p))).
Proof.
  intros Hb. destruct (recovery_block_buffer b Hb) as [Hi ->].
  rewrite (fold_muladd_mem bb Block (fun O => ob (block_index O))
             (fun O => C (block_index b - k) (block_index O))).
  - apply buffer_ext. intros p _.
    rewrite <- (gsum_map _ _ block_index (survivors params blocks)
                  (fun j => gmul (C (block_index b - k) j) (ob j p))).
    rewrite <- (gsum_perm _ _ _ (survivors_erasures_perm params blocks Hnd)).
    rewrite gsum_app. ring.
  - intros O HO. apply survivor_buffer, HO.
Qed.

Lemma rhs_SubtractOriginals (b : DataBlock) :
  In b (recoveries params blocks) ->
  SubtractOriginals X Y params (survivors params blocks)
                    (block_index b - k) (Block b)
  = buffer (Z.to_nat bb)
           (fun p => gsum E (fun e => gmul (C (block_index b - k) e)
                                           (ob e p))).
Proof.
  intros Hb. rewrite <- (rhs_muladd b Hb). unfold SubtractOriginals.
  apply fold_left_ext_in. intros acc O _.
  destruct (Byte.eqb (C (block_index b - k) (block_index O)) x01) eqn:E1;
    [|reflexivity].
  apply byte_eqb_eq in E1. rewrite E1. apply add_mem_muladd.
Qed.

Lemma rhs_add_mem (b : DataBlock) :
  In b (recoveries params blocks) ->
  block_index b - k = 0 ->
  fold_left (fun acc O => GF256.gf256_add_mem acc (Block O) bb)
            (survivors params blocks) (Block b)
  = buffer (Z.to_nat bb)
           (fun p => gsum E (fun e => gmul (C 0 e) (ob e p))).
Proof.
  intros Hb H0. pose proof (rhs_muladd b Hb) as H. rewrite H0 in H.
  rewrite <- H. apply fold_left_ext_in. intros acc O HO.
  destruct (survivor_buffer O HO) as [Hidx _].
  rewrite C_row0 by exact Hidx. apply add_mem_muladd.
Qed.

Local Abbreviation rp := (recovery_positions params blocks).

(** The solution: the missing originals, in the order of the erasures. *)
Definition missing_originals : list (list byte) :=
  map (fun e => Block (block_at originals (Z.to_nat e))) E.

Lemma Initialize_stripe : fst (Initialize params blocks) = true.
Proof.
  apply Initialize_true_iff. split; [exact Hcount|]. split; [|exact Hnd].
  intros b Hb. destruct Hvalid as (_ & Hr & _).
  destruct (Hstripe b Hb) as [[H _]|[H _]]; lia.
Qed.

Lemma length_erasures_rp : length E = length rp.
Proof.
  rewrite length_recovery_positions. now apply erasures_count.
Qed.

Lemma erasure_range (t : nat) : (t < length E)%nat -> 0 <= nth t E 0 < k.
Proof.
  intros Ht. apply (in_erasures params blocks). now apply nth_In.
Qed.

Lemma recovery_row_range (i : nat) :
  (i < length rp)%nat ->
  0 <= block_index (block_at blocks (nth i rp 0%nat)) - k < r.
Proof.
  intros Hi.
  apply (recovery_block_buffer _ (nth_recovery_position params blocks i Hi)).
Qed.

Lemma recovery_row_inj (i j : nat) :
  (i < length rp)%nat -> (j < length rp)%nat -> i <> j ->
  block_index (block_at blocks (nth i rp 0%nat)) - k
  <> block_index (block_at blocks (nth j rp 0%nat)) - k.
Proof.
  intros Hi Hj Hij Heq. apply Hij.
  apply (proj1 (NoDup_nth rp 0%nat) (NoDup_recovery_positions params blocks));
    try assumption.
  apply (block_index_inj blocks).
  - exact Hnd.
  - apply (in_recovery_positions params blocks). now apply nth_In.
  - apply (in_recovery_positions params blocks). now apply nth_In.
  - lia.
Qed.

(** The field elements of the supplied recoveries and of the erasures. *)
Definition xf (i : nat) : byte :=
  X (block_index (block_at blocks (nth i rp 0%nat)) - k).
Definition yf (j : nat) : byte := Y (nth j E 0).
Definition qf (j : nat) : byte := gadd (X 0) (yf j).
Definition xsf (t p : nat) : byte := ob (nth t E 0) p.

Lemma xf_yf (i j : nat) :
  (i < length rp)%nat -> (j < length rp)%nat -> xf i <> yf j.
Proof.
  intros Hi Hj. destruct Hpoints as (HXY & _). apply HXY.
  - now apply recovery_row_range.
  - apply erasure_range. now rewrite length_erasures_rp.
Qed.

Lemma xf_inj (i j : nat) :
  (i < length rp)%nat -> (j < length rp)%nat -> i <> j -> xf i <> xf j.
Proof.
  intros Hi Hj Hij. destruct Hpoints as (_ & HX & _). apply HX.
  - now apply recovery_row_range.
  - now apply recovery_row_range.
  - now apply recovery_row_inj.
Qed.

Lemma yf_inj (i j : nat) :
  (i < length rp)%nat -> (j < length rp)%nat -> i <> j -> yf i <> yf j.
Proof.
  intros Hi Hj Hij. destruct Hpoints as (_ & _ & HY).
  rewrite <- length_erasures_rp in Hi, Hj. apply HY.
  - now apply erasure_range.
  - now apply erasure_range.
  - intros Heq. apply Hij.
    now apply (proj1 (NoDup_nth E 0) (NoDup_erasures params blocks)).
Qed.

Lemma qf_neq_0 (j : nat) : (j < length rp)%nat -> qf j <> x00.
Proof.
  intros Hj. destruct Hpoints as (HXY & _). destruct Hvalid as (_ & Hr & _).
  apply gadd_neq_0, HXY; [lia|].
  apply erasure_range. now rewrite length_erasures_rp.
Qed.

(** The right-hand sides are the rows of the matrix applied to the
    missing originals. *)
Lemma rhs_BS :
  map (fun rec =>
         SubtractOriginals X Y params (survivors params blocks)
                           (block_index rec - k) (Block rec))
      (map (block_at blocks) rp)
  = BS (length rp) xsf bb (coef_A xf yf qf).
Proof.
  rewrite (list_by_position _ rp 0%nat) at 1.
  rewrite !map_map. unfold BS. apply map_ext_in. intros i Hi.
  apply in_seq in Hi.
  rewrite rhs_SubtractOriginals by (apply nth_recovery_position; lia).
  unfold LC. apply buffer_ext. intros p _.
  rewrite gsum_by_position, length_erasures_rp.
  apply gsum_ext. intros t _. unfold coef_A. now rewrite Schur_0.
Qed.

Lemma missing_originals_eq :
  map (fun i => buffer (Z.to_nat bb) (xsf i)) (seq 0 (length rp))
  = missing_originals.
Proof.
  unfold missing_originals. symmetry. rewrite (list_by_position _ E 0) at 1.
  rewrite map_map, length_erasures_rp. apply map_ext_in. intros t Ht.
  apply in_seq in Ht. apply ob_buffer, erasure_range.
  rewrite length_erasures_rp. lia.
Qed.

(** The m > 1 path reconstructs the missing originals. *)
Lemma DecodeSolve_result :
  DecodeSolve X Y
    {| Params := params;
       Recovery := rp;
       Original := original_positions params blocks;
       ErasuresIndices := E |}
    blocks
  = (Ok, StoreBack blocks rp missing_originals E).
Proof.
  unfold DecodeSolve, GenerateLDUDecomposition, LDU.
  cbn [Params Recovery Original ErasuresIndices].
  fold xf. fold yf.
  change (fun j : nat => gadd (X 0) (Y (nth j E 0))) with qf.
  rewrite (Pivot_nonzero_all xf yf qf (length rp) xf_yf xf_inj yf_inj qf_neq_0).
  rewrite map_original_positions, rhs_BS.
  rewrite (solve_correct xf yf qf (length rp) xf_yf xf_inj yf_inj qf_neq_0).
  - now rewrite missing_originals_eq.
  - intros i j Hi Hj. now apply mat_rows.
  - intros i Hi. now apply nth_map_seq.
  - intros i j Hi Hj. now apply mat_rows.
Qed.

(** The m = 1 fast path reconstructs the missing original. *)
Lemma DecodeM1_result :
  length E = 1%nat ->
  DecodeM1 X Y
    {| Params := params;
       Recovery := rp;
       Original := original_positions params blocks;
       ErasuresIndices := E |}
    blocks
  = StoreBack blocks rp missing_originals E.
Proof.
  intros HE1. pose proof length_erasures_rp as Hm. rewrite HE1 in Hm.
  pose proof (nth_recovery_position params blocks 0 ltac:(lia)) as Hrec.
  pose proof (erasure_range 0 ltac:(lia)) as He.
  pose proof (recovery_row_range 0 ltac:(lia)) as Hrow.
  pose proof (rhs_muladd _ Hrec) as Hmul.
  pose proof (rhs_add_mem _ Hrec) as Hadd.
  unfold missing_originals.
  unfold DecodeM1. cbn [Params Recovery Original ErasuresIndices].
  rewrite map_original_positions.
  destruct rp as [|p0 [|p1 rp']]; cbn [length] in Hm; try lia.
  destruct E as [|e [|e' E']]; cbn [length] in HE1; try lia.
  cbn [hd nth map StoreBack] in *. f_equal. f_equal.
  rewrite ob_buffer by exact He.
  destruct (Z.eqb_spec (block_index (block_at blocks p0) - k) 0) as [H0|H0].
  - rewrite Hadd by exact H0. apply buffer_ext. intros p _.
    cbn [gsum fold_right]. rewrite C_row0 by exact He. ring.
  - rewrite Hmul, div_mem_buffer. apply buffer_ext. intros p _.
    cbn [gsum fold_right]. field. now apply C_neq_0.
Qed.

(** [Decode] on [original_count] distinct blocks of a stripe. *)
Lemma Decode_result :
  Decode X Y params blocks = (Ok, StoreBack blocks rp missing_originals E).
Proof.
  unfold Decode.
  rewrite (proj1 (valid_params_ok params) Hvalid). cbn [negb].
  rewrite Initialize_eq, Initialize_stripe. cbn [negb ErasuresIndices].
  destruct E as [|e [|e' E']] eqn:HE.
  - unfold missing_originals. rewrite HE. cbn [map].
    now destruct rp.
  - rewrite <- HE. f_equal. apply DecodeM1_result. now rewrite HE.
  - rewrite <- HE. apply DecodeSolve_result.
Qed.

End DecoderFacts.

(** ** Encoder and decoder claims *)

(** The XOR of a list of bytes. *)
Definition xor_all (l : list byte) : byte := fold_right GF256.gf256_add x00 l.

Lemma xor_all_gsum (A : Type) (l : list A) (f : A -> byte) :
  xor_all (map f l) = gsum l f.
Proof.
  unfold xor_all, gsum. induction l as [|a l IH]; [reflexivity|].
  cbn [map fold_right]. now rewrite IH.
Qed.

Lemma filter_none (A : Type) (f : A -> bool) (l : list A) :
  (forall a, In a l -> f a = false) -> filter f l = [].
Proof.
  intros H. induction l as [|a l IH]; [reflexivity|]. cbn [filter].
  rewrite (H a) by now left. apply IH. intros b Hb. apply H. now right.
Qed.

(** C4, as amended.  Recovery block 0 is the plain XOR of the originals:
    for every valid parameter set and originals, byte [p] of the first
    block written by [Encode] is [O_0[p] xor ... xor O_{k-1}[p]]; and for
    k = 3, block_bytes = 4 and the originals [01,02,03,04], [10,20,30,40],
    [A0,B0,C0,D0] that block is [B1,92,F3,94]. *)
Theorem Encode_first_recovery_is_xor :
  (forall (X Y : Z -> byte) (params : EncoderParams)
          (originals : list DataBlock) (recoveryBlocks : list byte),
      valid_params params ->
      length originals = Z.to_nat (OriginalCount params) ->
      (forall O, In O originals ->
                 length (Block O) = Z.to_nat (BlockBytes params)) ->
      length recoveryBlocks
      = (Z.to_nat (RecoveryCount params) * Z.to_nat (BlockBytes params))%nat ->
      fst (Encode X Y params originals recoveryBlocks) = Ok
      /\ forall p : nat,
           (p < Z.to_nat (BlockBytes params))%nat ->
           nth p (chunk (Z.to_nat (BlockBytes params))
                        (snd (Encode X Y params originals recoveryBlocks)) 0)
               x00
           = xor_all (map (fun O => nth p (Block O) x00) originals))
  /\ (forall X Y : Z -> byte,
         chunk 4
           (snd (Encode X Y
                   {| OriginalCount := 3; RecoveryCount := 1; BlockBytes := 4 |}
                   [ {| Block := [x01; x02; x03; x04]; Index := x00 |};
                     {| Block := [x10; x20; x30; x40]; Index := x01 |};
                     {| Block := [xa0; xb0; xc0; xd0]; Index := x02 |} ]
                   [x00; x00; x00; x00])) 0
         = [xb1; x92; xf3; x94]).
Proof.
  split; [|intros X Y; vm_compute; reflexivity].
  intros X Y params originals rbs Hvalid Hlen Hblocks Hrbs.
  assert (Hb : forall j, (j < Z.to_nat (OriginalCount params))%nat ->
                         length (Block (block_at originals j))
                         = Z.to_nat (BlockBytes params)).
  { intros j Hj. apply Hblocks, block_at_In. lia. }
  assert (Hr : (0 < Z.to_nat (RecoveryCount params))%nat)
    by (destruct Hvalid as (_ & ? & _); lia).
  destruct (Encode_chunk X Y params originals Hvalid Hlen rbs 0%nat Hrbs Hr)
    as [Hok Hchunk].
  split; [exact Hok|]. intros p Hp.
  rewrite Hchunk. change (Z.of_nat 0) with 0. rewrite Z.add_0_r.
  rewrite (EncodeOneDataBlock_first X Y params originals Hvalid Hlen Hb)
    by (now apply (length_chunk _ (Z.to_nat (RecoveryCount params)))).
  rewrite nth_buffer by exact Hp.
  symmetry. rewrite (blocks_by_position originals) at 1.
  rewrite map_map, xor_all_gsum, Hlen. reflexivity.
Qed.

Lemma Encode_first_recovery_is_xor_witness :
  nth 1 (chunk 4
           (snd (Encode (fun i => byte_of_Z (3 + i)) byte_of_Z
                   {| OriginalCount := 3; RecoveryCount := 1; BlockBytes := 4 |}
                   [ {| Block := [x01; x02; x03; x04]; Index := x00 |};
                     {| Block := [x10; x20; x30; x40]; Index := x01 |};
                     {| Block := [xa0; xb0; xc0; xd0]; Index := x02 |} ]
                   [x00; x00; x00; x00])) 0) x00
  = xor_all [x02; x20; xb0].
Proof.
  refine (proj2 (proj1 Encode_first_recovery_is_xor
                   (fun i => byte_of_Z (3 + i)) byte_of_Z
                   {| OriginalCount := 3; RecoveryCount := 1; BlockBytes := 4 |}
                   [ {| Block := [x01; x02; x03; x04]; Index := x00 |};
                     {| Block := [x10; x20; x30; x40]; Index := x01 |};
                     {| Block := [xa0; xb0; xc0; xd0]; Index := x02 |} ]
                   [x00; x00; x00; x00] _ _ _ _) 1%nat _).
  - unfold valid_params. cbn. lia.
  - reflexivity.
  - intros O [<- | [<- | [<- | []]]]; reflexivity.
  - reflexivity.
  - cbn. lia.
Defined.

(** C4, as stated, fails on its example: the last byte of the XOR of
    [01,02,03,04], [10,20,30,40] and [A0,B0,C0,D0] is 04 xor 40 xor D0 = 94,
    so the first recovery block is not [B1,92,F3,D4]. *)
Lemma Encode_first_recovery_example_differs :
  chunk 4
    (snd (Encode (fun i => byte_of_Z (3 + i)) byte_of_Z
            {| OriginalCount := 3; RecoveryCount := 1; BlockBytes := 4 |}
            [ {| Block := [x01; x02; x03; x04]; Index := x00 |};
              {| Block := [x10; x20; x30; x40]; Index := x01 |};
              {| Block := [xa0; xb0; xc0; xd0]; Index := x02 |} ]
            [x00; x00; x00; x00])) 0
  <> [xb1; x92; xf3; xd4].
Proof. vm_compute. discriminate. Qed.

(** C5.  [Decode] fails with a parameter error whenever the number of
    missing original positions among the supplied blocks differs from the
    number of recovery blocks supplied; when it succeeds the two numbers
    are equal. *)
Theorem Decode_count_mismatch (X Y : Z -> byte) (params : EncoderParams)
        (blocks : list DataBlock) :
  (length (erasures params blocks) <> length (recoveries params blocks) ->
   fst (Decode X Y params blocks) = ParameterError)
  /\ (fst (Decode X Y params blocks) = Ok ->
      length (erasures params blocks) = length (recoveries params blocks)).
Proof.
  unfold Decode.
  destruct (params_ok params); cbn [negb];
    [|split; [reflexivity | discriminate]].
  rewrite Initialize_eq.
  destruct (fst (Initialize params blocks)) eqn:Hinit; cbn [negb];
    [|split; [reflexivity | discriminate]].
  apply Initialize_true_iff in Hinit. destruct Hinit as (Hlen & _ & Hnd).
  pose proof (erasures_count params blocks Hlen Hnd) as Hc.
  split; [intros Hne; contradiction | intros _; exact Hc].
Qed.

Lemma Decode_count_mismatch_witness :
  fst (Decode (fun i => byte_of_Z (3 + i)) byte_of_Z
              {| OriginalCount := 3; RecoveryCount := 2; BlockBytes := 1 |}
              [ {| Block := [x01]; Index := x00 |};
                {| Block := [x01]; Index := x00 |};
                {| Block := [x07]; Index := x03 |} ])
  = ParameterError.
Proof.
  apply (proj1 (Decode_count_mismatch
                  (fun i => byte_of_Z (3 + i)) byte_of_Z
                  {| OriginalCount := 3; RecoveryCount := 2; BlockBytes := 1 |}
                  [ {| Block := [x01]; Index := x00 |};
                    {| Block := [x01]; Index := x00 |};
                    {| Block := [x07]; Index := x03 |} ])).
  vm_compute. discriminate.
Defined.

(** C6.  Decoding a stripe with no erasures is a no-op: for every valid
    parameter set, if the [original_count] supplied blocks carry all the
    original indices, [Decode] returns ok and leaves the array, buffers
    and [Index] fields, as it was. *)
Theorem Decode_no_erasures (X Y : Z -> byte) (params : EncoderParams)
        (blocks : list DataBlock) :
  valid_params params ->
  Z.of_nat (length blocks) = OriginalCount params ->
  (forall j, 0 <= j < OriginalCount params ->
             exists b, In b blocks /\ block_index b = j) ->
  Decode X Y params blocks = (Ok, blocks).
Proof.
  intros Hvalid Hlen Hall.
  assert (Hincl : incl (zrange (Z.to_nat (OriginalCount params)))
                       (map block_index blocks)).
  { intros j Hj. apply in_zrange in Hj.
    destruct (Hall j ltac:(lia)) as (b & Hb & <-). now apply in_map. }
  assert (Hle : (length (map block_index blocks)
                 <= length (zrange (Z.to_nat (OriginalCount params))))%nat)
    by (rewrite length_map, length_zrange; lia).
  pose proof (NoDup_incl_NoDup (NoDup_zrange _) Hle Hincl) as Hnd.
  pose proof (NoDup_length_incl (NoDup_zrange _) Hle Hincl) as Hsub.
  assert (Hinit : fst (Initialize params blocks) = true).
  { apply Initialize_true_iff. split; [exact Hlen|]. split; [|exact Hnd].
    intros b Hb. specialize (Hsub (block_index b) (in_map _ _ _ Hb)).
    apply in_zrange in Hsub. destruct Hvalid as (_ & Hr & _). lia. }
  assert (HE : erasures params blocks = []).
  { unfold erasures. apply filter_none. intros j Hj.
    apply negb_false_iff, existsb_eqb_In, Hincl, Hj. }
  unfold Decode.
  rewrite (proj1 (valid_params_ok params) Hvalid). cbn [negb].
  rewrite Initialize_eq, Hinit. cbn [negb ErasuresIndices].
  now rewrite HE.
Qed.

Lemma Decode_no_erasures_witness :
  Decode (fun i => byte_of_Z (3 + i)) byte_of_Z
         {| OriginalCount := 3; RecoveryCount := 2; BlockBytes := 1 |}
         [ {| Block := [x0a]; Index := x02 |};
           {| Block := [x0b]; Index := x00 |};
           {| Block := [x0c]; Index := x01 |} ]
  = (Ok, [ {| Block := [x0a]; Index := x02 |};
           {| Block := [x0b]; Index := x00 |};
           {| Block := [x0c]; Index := x01 |} ]).
Proof.
  apply (Decode_no_erasures (fun i => byte_of_Z (3 + i)) byte_of_Z
           {| OriginalCount := 3; RecoveryCount := 2; BlockBytes := 1 |}).
  - unfold valid_params. cbn. lia.
  - reflexivity.
  - intros j Hj. cbn in Hj.
    assert (E : j = 0 \/ j = 1 \/ j = 2) by lia.
    destruct E as [-> | [-> | ->]].
    + exists {| Block := [x0b]; Index := x00 |}. cbn. tauto.
    + exists {| Block := [x0c]; Index := x01 |}. cbn. tauto.
    + exists {| Block := [x0a]; Index := x02 |}. cbn. tauto.
Defined.

(** ** Round trip *)

(** The points of the cm256 convention, [X i = original_count + i] and
    [Y j = j], meet the requirement for every valid parameter set. *)
Lemma cauchy_points_block_index (params : EncoderParams) :
  valid_params params ->
  cauchy_points (fun i => byte_of_Z (OriginalCount params + i)) byte_of_Z
                params.
Proof.
  intros (Hk & Hr & Hsum & _).
  assert (Hinj : forall a b, 0 <= a < 256 -> 0 <= b < 256 -> a <> b ->
                             byte_of_Z a <> byte_of_Z b).
  { intros a b Ha Hb Hab E. apply Hab.
    rewrite <- (Z_of_byte_of_Z a Ha), <- (Z_of_byte_of_Z b Hb).
    now rewrite E. }
  repeat split; intros; apply Hinj; lia.
Qed.

(** The points written in the spec, [X i = recovery_count - 1 - i + 128]
    and [Y j = j], meet it when neither count exceeds 128. *)
Lemma cauchy_points_spec_choice (params : EncoderParams) :
  valid_params params ->
  OriginalCount params <= 128 -> RecoveryCount params <= 128 ->
  cauchy_points (fun i => byte_of_Z (RecoveryCount params - 1 - i + 128))
                byte_of_Z params.
Proof.
  intros (Hk & Hr & Hsum & _) Hk' Hr'.
  assert (Hinj : forall a b, 0 <= a < 256 -> 0 <= b < 256 -> a <> b ->
                             byte_of_Z a <> byte_of_Z b).
  { intros a b Ha Hb Hab E. apply Hab.
    rewrite <- (Z_of_byte_of_Z a Ha), <- (Z_of_byte_of_Z b Hb).
    now rewrite E. }
  repeat split; intros; apply Hinj; lia.
Qed.

Section RoundTrip.

Variables X Y : Z -> byte.
Variable params : EncoderParams.
Variable originals : list DataBlock.
Variable rbs : list byte.
Variable blocks : list DataBlock.

Local Abbreviation k := (OriginalCount params).
Local Abbreviation r := (RecoveryCount params).
Local Abbreviation bb := (BlockBytes params).
Local Abbreviation E := (erasures params blocks).
Local Abbreviation rp := (recovery_positions params blocks).
Local Abbreviation out :=
  (StoreBack blocks rp (missing_originals params originals blocks) E).

Hypothesis Hvalid : valid_params params.
Hypothesis Hpoints : cauchy_points X Y params.
Hypothesis Hlen : length originals = Z.to_nat k.
Hypothesis Hblocks :
  forall O, In O originals -> length (Block O) = Z.to_nat bb.
Hypothesis Hrbs : length rbs = (Z.to_nat r * Z.to_nat bb)%nat.
Hypothesis Hcount : Z.of_nat (length blocks) = k.
Hypothesis Hnd : NoDup (map block_index blocks).
Hypothesis Hstripe :
  forall b, In b blocks -> stripe_block X Y params originals rbs b.

Lemma Hblocks_at :
  forall j, (j < Z.to_nat k)%nat ->
            length (Block (block_at originals j)) = Z.to_nat bb.
Proof using Hlen Hblocks.
  intros j Hj. apply Hblocks, block_at_In. now rewrite Hlen.
Qed.

Lemma Decode_stripe : Decode X Y params blocks = (Ok, out).
Proof using Hvalid Hpoints Hlen Hblocks Hrbs Hcount Hnd Hstripe.
  exact (Decode_result X Y params originals rbs blocks Hvalid Hlen Hblocks_at
                       Hrbs Hpoints Hcount Hnd Hstripe).
Qed.





End RoundTrip.


(** A stripe to try the decoder on: three originals of four bytes, two
    recoveries, and a received array in which the originals 0 and 2 are
    replaced by the recoveries 1 and 0. *)
Definition example_params : EncoderParams :=
  {| OriginalCount := 3; RecoveryCount := 2; BlockBytes := 4 |}.

Definition example_X (i : Z) : byte := byte_of_Z (3 + i).
Definition example_Y (j : Z) : byte := byte_of_Z j.

Definition example_originals : list DataBlock :=
  [ {| Block := [x01; x02; x03; x04]; Index := x00 |};
    {| Block := [x10; x20; x30; x40]; Index := x01 |};
    {| Block := [xa0; xb0; xc0; xd0]; Index := x02 |} ].

Definition example_recovery (i : nat) : list byte :=
  chunk 4 (snd (Encode example_X example_Y example_params example_originals
                       (repeat x00 8))) i.

Definition example_received : list DataBlock :=
  [ {| Block := example_recovery 1; Index := x04 |};
    {| Block := [x10; x20; x30; x40]; Index := x01 |};
    {| Block := example_recovery 0; Index := x03 |} ].

Lemma example_valid : valid_params example_params.
Proof. unfold valid_params. cbn. lia. Qed.

Lemma example_points : cauchy_points example_X example_Y example_params.
Proof. exact (cauchy_points_block_index example_params example_valid). Qed.

Lemma example_lengths :
  forall O, In O example_originals ->
            length (Block O) = Z.to_nat (BlockBytes example_params).
Proof. intros O [<- | [<- | [<- | []]]]; reflexivity. Qed.

Lemma example_distinct : NoDup (map block_index example_received).
Proof.
  change (map block_index example_received) with [4; 1; 3].
  repeat constructor; cbn; intuition discriminate.
Qed.

Lemma example_stripe :
  forall b, In b example_received ->
            stripe_block example_X example_Y example_params example_originals
                         (repeat x00 8) b.
Proof.
  intros b [<- | [<- | [<- | []]]].
  - right. split; [|reflexivity].
    change (3 <= 4 < 3 + 2). lia.
  - left. split; [|reflexivity].
    change (1 < 3). lia.
  - right. split; [|reflexivity].
    change (3 <= 3 < 3 + 2). lia.
Qed.


(** ** The frame of [Decode] *)

Lemma fold_left_invariant (A B : Type) (P : A -> Prop) (f : A -> B -> A)
      (l : list B) (a : A) :
  P a -> (forall a b, P a -> P (f a b)) -> P (fold_left f l a).
Proof.
  intros Ha Hf. revert a Ha.
  induction l as [|b l IH]; intros a Ha; cbn [fold_left]; auto.
Qed.

Lemma length_ForwardSubstitute (L : list (list byte)) (bb : Z) (m : nat)
      (b : list (list byte)) :
  length (ForwardSubstitute L bb m b) = length b.
Proof.
  unfold ForwardSubstitute.
  apply (fold_left_invariant _ _ (fun c => length c = length b));
    [reflexivity|].
  intros c i Hc.
  apply (fold_left_invariant _ _ (fun c => length c = length b));
    [exact Hc|].
  intros c' j Hc'. now rewrite length_upd.
Qed.

Lemma length_DivideDiagonal (D : list byte) (bb : Z) (m : nat)
      (b : list (list byte)) :
  length (DivideDiagonal D bb m b) = length b.
Proof.
  unfold DivideDiagonal.
  apply (fold_left_invariant _ _ (fun c => length c = length b));
    [reflexivity|].
  intros c i Hc. now rewrite length_upd.
Qed.

Lemma length_BackSubstitute (U : list (list byte)) (bb : Z) (m : nat)
      (b : list (list byte)) :
  length (BackSubstitute U bb m b) = length b.
Proof.
  unfold BackSubstitute.
  apply (fold_left_invariant _ _ (fun c => length c = length b));
    [reflexivity|].
  intros c i Hc.
  apply (fold_left_invariant _ _ (fun c => length c = length b));
    [exact Hc|].
  intros c' j Hc'. now rewrite length_upd.
Qed.

(** What a successful [Decode] does to the array, whatever the blocks
    hold: the positions that carried an original index are left alone, and
    the [i]-th position that carried a recovery index gets the [i]-th
    missing original index. *)
Lemma Decode_ok_shape (X Y : Z -> byte) (params : EncoderParams)
      (blocks : list DataBlock) :
  fst (Decode X Y params blocks) = Ok ->
  valid_params params
  /\ Z.of_nat (length blocks) = OriginalCount params
  /\ NoDup (map block_index blocks)
  /\ length (erasures params blocks)
     = length (recovery_positions params blocks)
  /\ length (snd (Decode X Y params blocks)) = length blocks
  /\ (forall p, ~ In p (recovery_positions params blocks) ->
                block_at (snd (Decode X Y params blocks)) p
                = block_at blocks p)
  /\ (forall i, (i < length (recovery_positions params blocks))%nat ->
                Index (block_at (snd (Decode X Y params blocks))
                                (nth i (recovery_positions params blocks)
                                     0%nat))
                = byte_of_Z (nth i (erasures params blocks) 0)).
Proof.
  unfold Decode.
  destruct (params_ok params) eqn:Hok; cbn [negb]; [|discriminate].
  rewrite Initialize_eq.
  destruct (fst (Initialize params blocks)) eqn:Hinit; cbn [negb];
    [|discriminate].
  apply Initialize_true_iff in Hinit. destruct Hinit as (Hlen & _ & Hnd).
  pose proof (erasures_count params blocks Hlen Hnd) as Hm.
  rewrite <- length_recovery_positions in Hm.
  pose proof (in_recovery_positions params blocks) as Hin.
  pose proof (NoDup_recovery_positions params blocks) as Hndp.
  apply valid_params_ok in Hok.
  cbn [ErasuresIndices].
  destruct (erasures params blocks) as [|e [|e' E']] eqn:HE.
  - intros _. do 4 (split; [assumption|]).
    split; [reflexivity|]. split; [reflexivity|].
    intros i Hi. cbn [length] in Hm. lia.
  - intros _. cbn [snd]. unfold DecodeM1.
    cbn [Params Recovery Original ErasuresIndices].
    destruct (recovery_positions params blocks) as [|p0 [|p1 rp']];
      cbn [length] in Hm; try lia.
    cbn [hd]. do 4 (split; [assumption|]). split; [|split].
    + apply length_upd.
    + intros p Hp. unfold block_at. apply nth_upd_other.
      intros ->. apply Hp. now left.
    + intros i Hi. cbn [length] in Hi.
      assert (i = 0%nat) as -> by lia. cbn [nth].
      unfold block_at. rewrite nth_upd_same; [reflexivity|].
      apply Hin. now left.
  - unfold DecodeSolve.
    destruct (GenerateLDUDecomposition X Y _ blocks) as [[L D] U].
    destruct (existsb _ D); cbn [fst snd]; [discriminate|].
    cbn [Params Recovery Original ErasuresIndices].
    intros _. do 4 (split; [assumption|]). split; [|split].
    + apply length_StoreBack.
    + intros p Hp. now apply StoreBack_other.
    + intros i Hi. rewrite StoreBack_at; try assumption.
      * reflexivity.
      * intros p Hp. now apply Hin.
      * now rewrite length_BackSubstitute, length_DivideDiagonal,
          length_ForwardSubstitute, !length_map.
Qed.



(** ** The points written in the spec *)

(** The points [spec_X], [spec_Y] are pairwise distinct exactly when
    neither count exceeds 128. *)
Lemma cauchy_points_spec_iff (params : EncoderParams) :
  valid_params params ->
  cauchy_points (spec_X params) spec_Y params
  <-> OriginalCount params <= 128 /\ RecoveryCount params <= 128.
Proof.
  intros Hvalid. split.
  - intros (Hxy & _ & _). destruct Hvalid as (Hk & Hr & Hsum & _).
    split.
    + destruct (Z_le_gt_dec (OriginalCount params) 128) as [H|H];
        [exact H|]. exfalso.
      apply (Hxy (RecoveryCount params - 1) 128); try lia.
      unfold spec_X, spec_Y. f_equal. lia.
    + destruct (Z_le_gt_dec (RecoveryCount params) 128) as [H|H];
        [exact H|]. exfalso.
      apply (Hxy (RecoveryCount params - 129) 0); try lia.
      unfold spec_X, spec_Y.
      replace (RecoveryCount params - 1 - (RecoveryCount params - 129) + 128)
        with 256 by lia.
      reflexivity.
  - intros [Hk Hr].
    exact (cauchy_points_spec_choice params Hvalid Hk Hr).
Qed.









(** * Further properties of the field and of the bulk operations *)

(** ** The field, with the tables as [gf256_init] fills them *)

(** X12.  [gf256_mul] is commutative and associative. *)
Theorem gf256_mul_comm_assoc (x y z : byte) :
  GF256.gf256_mul ctx0 x y = GF256.gf256_mul ctx0 y x
  /\ GF256.gf256_mul ctx0 x (GF256.gf256_mul ctx0 y z)
     = GF256.gf256_mul ctx0 (GF256.gf256_mul ctx0 x y) z.
Proof. split; [apply gmul_comm | apply gmul_assoc]. Qed.

(** X13.  [gf256_mul] distributes over [gf256_add], on both sides. *)
Theorem gf256_mul_distributes (x y z : byte) :
  GF256.gf256_mul ctx0 x (GF256.gf256_add y z)
  = GF256.gf256_add (GF256.gf256_mul ctx0 x y) (GF256.gf256_mul ctx0 x z)
  /\ GF256.gf256_mul ctx0 (GF256.gf256_add x y) z
     = GF256.gf256_add (GF256.gf256_mul ctx0 x z) (GF256.gf256_mul ctx0 y z).
Proof. split; ring. Qed.

(** X14.  One is neutral for [gf256_mul], and a product is zero exactly
    when one of its factors is: the field has no zero divisors. *)
Theorem gf256_mul_one_zero (x y : byte) :
  GF256.gf256_mul ctx0 x x01 = x
  /\ GF256.gf256_mul ctx0 x01 x = x
  /\ (GF256.gf256_mul ctx0 x y = x00 <-> x = x00 \/ y = x00).
Proof.
  split; [apply gmul_1_r|]. split; [apply gmul_1_l|]. split.
  - apply gmul_integral.
  - intros [-> | ->]; [apply gmul_0_l | apply gmul_0_r].
Qed.

(** X15.  [gf256_inv] of a byte other than zero is its inverse for
    [gf256_mul]; it is not zero, and its own inverse is the byte. *)
Theorem gf256_inv_inverse (x : byte) :
  x <> x00 ->
  GF256.gf256_mul ctx0 x (GF256.gf256_inv ctx0 x) = x01
  /\ GF256.gf256_inv ctx0 x <> x00
  /\ GF256.gf256_inv ctx0 (GF256.gf256_inv ctx0 x) = x.
Proof.
  intros Hx. pose proof (ginv_neq_0 x Hx) as Hi.
  split; [rewrite gmul_comm; now apply ginv_l|]. split; [exact Hi|].
  rewrite <- (gmul_1_r (ginv (ginv x))), <- (ginv_l x Hx), gmul_assoc.
  rewrite (ginv_l (ginv x) Hi). apply gmul_1_l.
Qed.

Lemma gf256_inv_inverse_witness :
  GF256.gf256_mul ctx0 x02 (GF256.gf256_inv ctx0 x02) = x01
  /\ GF256.gf256_inv ctx0 x02 <> x00
  /\ GF256.gf256_inv ctx0 (GF256.gf256_inv ctx0 x02) = x02.
Proof. apply (gf256_inv_inverse x02). discriminate. Defined.

(** X17.  [gf256_sqr] is additive, the square of a sum being the sum of
    the squares, and two bytes with the same square are equal. *)
Theorem gf256_sqr_additive (x y : byte) :
  GF256.gf256_sqr ctx0 (GF256.gf256_add x y)
  = GF256.gf256_add (GF256.gf256_sqr ctx0 x) (GF256.gf256_sqr ctx0 y)
  /\ (GF256.gf256_sqr ctx0 x = GF256.gf256_sqr ctx0 y <-> x = y).
Proof.
  rewrite !gsqr_def.
  assert (Hadd : gmul (gadd x y) (gadd x y) = gadd (gmul x x) (gmul y y))
    by ring.
  split; [exact Hadd|]. split; [|now intros ->].
  intros E. apply gadd_eq_0.
  assert (H0 : gmul (gadd x y) (gadd x y) = x00)
    by (rewrite Hadd, E; apply gadd_nilpotent).
  now destruct (gmul_integral _ _ H0).
Qed.

(** X18.  Dividing by a byte other than zero is multiplying by its
    inverse, and multiplying the quotient by the divisor gives back the
    dividend. *)
Theorem gf256_div_is_mul_inv (x y : byte) :
  y <> x00 ->
  GF256.gf256_div ctx0 x y = GF256.gf256_mul ctx0 x (GF256.gf256_inv ctx0 y)
  /\ GF256.gf256_mul ctx0 (GF256.gf256_div ctx0 x y) y = x.
Proof.
  intros Hy. split; [apply gdiv_def|].
  rewrite gdiv_def, <- gmul_assoc, (ginv_l y Hy). apply gmul_1_r.
Qed.

Lemma gf256_div_is_mul_inv_witness :
  GF256.gf256_div ctx0 x53 x07
  = GF256.gf256_mul ctx0 x53 (GF256.gf256_inv ctx0 x07)
  /\ GF256.gf256_mul ctx0 (GF256.gf256_div ctx0 x53 x07) x07 = x53.
Proof. apply (gf256_div_is_mul_inv x53 x07). discriminate. Defined.

(** ** The bulk operations *)

Lemma mem_loop_compose (f g : byte -> byte -> byte) (n : nat)
      (vz vx : list byte) :
  GF256.mem_loop f n (GF256.mem_loop g n vz vx) vx
  = GF256.mem_loop (fun z x => f (g z x) x) n vz vx.
Proof.
  revert vz vx. induction n as [|n IH]; intros [|z vz] [|x vx];
    cbn [GF256.mem_loop]; try reflexivity.
  now rewrite IH.
Qed.

Lemma mem_loop_id (n : nat) (vz vx : list byte) :
  GF256.mem_loop (fun z _ => z) n vz vx = vz.
Proof.
  revert vz vx. induction n as [|n IH]; intros [|z vz] [|x vx];
    cbn [GF256.mem_loop]; try reflexivity.
  now rewrite IH.
Qed.

Lemma mem_loop_back (f g : byte -> byte) (n : nat) (vz vx : list byte) :
  (forall x, g (f x) = x) ->
  GF256.mem_loop (fun _ w => g w) n vx (GF256.mem_loop (fun _ x => f x) n vz vx)
  = vx.
Proof.
  intros Hgf. revert vz vx.
  induction n as [|n IH]; intros [|z vz] [|x vx];
    cbn [GF256.mem_loop]; try reflexivity.
  now rewrite Hgf, IH.
Qed.

Lemma mem_loop2_split (f g : byte -> byte -> byte)
      (h : byte -> byte -> byte -> byte) (n : nat) (vz vx vy : list byte) :
  (forall z x y, h z x y = f (g z x) y) ->
  length vx = length vy ->
  GF256.mem_loop2 h n vz vx vy
  = GF256.mem_loop f n (GF256.mem_loop g n vz vx) vy.
Proof.
  intros Hh. revert vz vx vy.
  induction n as [|n IH]; intros [|z vz] [|x vx] [|y vy] Hlen;
    cbn [GF256.mem_loop GF256.mem_loop2]; try reflexivity;
    try discriminate Hlen.
  rewrite Hh, IH; [reflexivity|]. now injection Hlen.
Qed.

(** X19.  [gf256_add_mem] undoes itself: adding the same buffer twice
    leaves the destination as it was, for every byte count and every pair
    of buffers. *)
Theorem gf256_add_mem_twice (vx vy : list byte) (bytes : Z) :
  GF256.gf256_add_mem (GF256.gf256_add_mem vx vy bytes) vy bytes = vx.
Proof.
  unfold GF256.gf256_add_mem. rewrite mem_loop_compose.
  rewrite (mem_loop_ext _ (fun z _ => z)); [apply mem_loop_id|].
  intros z x. now rewrite <- gadd_assoc, gadd_nilpotent, gadd_0_r.
Qed.

(** X20.  Multiplying a buffer by a byte other than zero and dividing the
    product back into it with [gf256_div_mem] leaves the buffer as it
    was. *)
Theorem gf256_mul_mem_div_mem (vz vx : list byte) (y : byte) (bytes : Z) :
  y <> x00 ->
  GF256.gf256_div_mem ctx0 vx (GF256.gf256_mul_mem ctx0 vz vx y bytes) y bytes
  = vx.
Proof.
  intros Hy. rewrite (proj1 (gf256_div_mem_inverse_gen _ _ _ _)).
  unfold GF256.gf256_mul_mem.
  apply (mem_loop_back (fun x => gmul x y) (fun w => gmul w (ginv y))).
  intros x. rewrite <- gmul_assoc, (gmul_comm y), (ginv_l y Hy).
  apply gmul_1_r.
Qed.

Lemma gf256_mul_mem_div_mem_witness :
  GF256.gf256_div_mem ctx0 [x0a; x0b; x0c]
    (GF256.gf256_mul_mem ctx0 [x00; x00; x00] [x0a; x0b; x0c] x07 3) x07 3
  = [x0a; x0b; x0c].
Proof.
  apply (gf256_mul_mem_div_mem [x00; x00; x00] [x0a; x0b; x0c] x07 3).
  discriminate.
Defined.

(** X21.  Two [gf256_muladd_mem] of the same source add up: multiplying
    by [a] and then by [b] is multiplying once by [a + b]. *)
Theorem gf256_muladd_mem_adds (vz vx : list byte) (a b : byte) (bytes : Z) :
  GF256.gf256_muladd_mem ctx0 (GF256.gf256_muladd_mem ctx0 vz a vx bytes)
                         b vx bytes
  = GF256.gf256_muladd_mem ctx0 vz (GF256.gf256_add a b) vx bytes.
Proof.
  unfold GF256.gf256_muladd_mem. rewrite mem_loop_compose.
  apply mem_loop_ext. intros z x. ring.
Qed.

(** X22.  [gf256_muladd_mem] by one is [gf256_add_mem], and by zero it
    leaves the destination as it was. *)
Theorem gf256_muladd_mem_one_zero (vz vx : list byte) (bytes : Z) :
  GF256.gf256_muladd_mem ctx0 vz x01 vx bytes
  = GF256.gf256_add_mem vz vx bytes
  /\ GF256.gf256_muladd_mem ctx0 vz x00 vx bytes = vz.
Proof.
  unfold GF256.gf256_muladd_mem, GF256.gf256_add_mem. split.
  - apply mem_loop_ext. intros z x. now rewrite gmul_1_r.
  - rewrite (mem_loop_ext _ (fun z _ => z)); [apply mem_loop_id|].
    intros z x. now rewrite gmul_0_r, gadd_0_r.
Qed.

(** X24.  With sources of one length, [gf256_add2_mem] is two
    [gf256_add_mem], and [gf256_addset_mem] is a [memcpy] followed by a
    [gf256_add_mem]. *)
Theorem gf256_add2_addset_mem (vz vx vy : list byte) (bytes : Z) :
  length vx = length vy ->
  GF256.gf256_add2_mem vz vx vy bytes
  = GF256.gf256_add_mem (GF256.gf256_add_mem vz vx bytes) vy bytes
  /\ GF256.gf256_addset_mem vz vx vy bytes
     = GF256.gf256_add_mem (GF256.memcpy vz vx bytes) vy bytes.
Proof.
  intros Hlen.
  unfold GF256.gf256_add2_mem, GF256.gf256_addset_mem, GF256.gf256_add_mem,
    GF256.memcpy.
  split; apply mem_loop2_split; try exact Hlen; intros z x y.
  - apply gadd_assoc.
  - reflexivity.
Qed.

Lemma gf256_add2_addset_mem_witness :
  GF256.gf256_add2_mem [x01; x02] [x10; x20] [xa0; xb0] 2
  = GF256.gf256_add_mem (GF256.gf256_add_mem [x01; x02] [x10; x20] 2)
                        [xa0; xb0] 2
  /\ GF256.gf256_addset_mem [x01; x02] [x10; x20] [xa0; xb0] 2
     = GF256.gf256_add_mem (GF256.memcpy [x01; x02] [x10; x20] 2)
                           [xa0; xb0] 2.
Proof.
  apply (gf256_add2_addset_mem [x01; x02] [x10; x20] [xa0; xb0] 2).
  reflexivity.
Defined.

(** * Further properties of the encoder and of the decoder *)

(** The coefficient of original [j] in recovery [i], the first row being
    computed with plain additions. *)
Definition row_coefficient (X Y : Z -> byte) (i : Z) (j : nat) : byte :=
  if i =? 0 then x01 else GetMatrixElement X Y i (Z.of_nat j).

Section EncoderMore.

Variables X Y : Z -> byte.
Variable params : EncoderParams.

Local Abbreviation k := (OriginalCount params).
Local Abbreviation r := (RecoveryCount params).
Local Abbreviation bb := (BlockBytes params).

Hypothesis Hvalid : valid_params params.

(** Every recovery block is a combination of the originals, whatever the
    output buffer held. *)
Lemma EncodeOneDataBlock_closed (originals : list DataBlock) (i : Z)
      (rb : list byte) :
  length originals = Z.to_nat k ->
  (forall j, (j < Z.to_nat k)%nat ->
             length (Block (block_at originals j)) = Z.to_nat bb) ->
  length rb = Z.to_nat bb ->
  EncodeOneDataBlock X Y params originals (k + i) rb
  = buffer (Z.to_nat bb)
           (fun p => gsum (seq 0 (Z.to_nat k))
                          (fun j => gmul (row_coefficient X Y i j)
                                         (original_byte originals j p))).
Proof using Hvalid.
  intros Hlen Hblocks Hrb. unfold row_coefficient.
  destruct (Z.eqb_spec i 0) as [-> | Hi].
  - rewrite Z.add_0_r.
    rewrite (EncodeOneDataBlock_first X Y params originals Hvalid Hlen
               Hblocks rb Hrb).
    apply buffer_ext. intros p _. apply gsum_ext. intros j _.
    now rewrite gmul_1_l.
  - apply (EncodeOneDataBlock_other X Y params originals Hvalid Hlen
             Hblocks i rb Hi Hrb).
Qed.

Lemma Encode_chunk_closed (originals : list DataBlock) (rbs : list byte)
      (i : nat) :
  length originals = Z.to_nat k ->
  (forall j, (j < Z.to_nat k)%nat ->
             length (Block (block_at originals j)) = Z.to_nat bb) ->
  length rbs = (Z.to_nat r * Z.to_nat bb)%nat ->
  (i < Z.to_nat r)%nat ->
  chunk (Z.to_nat bb) (snd (Encode X Y params originals rbs)) i
  = buffer (Z.to_nat bb)
           (fun p => gsum (seq 0 (Z.to_nat k))
                          (fun j => gmul (row_coefficient X Y (Z.of_nat i) j)
                                         (original_byte originals j p))).
Proof using Hvalid.
  intros Hlen Hblocks Hrbs Hi.
  rewrite (proj2 (Encode_chunk X Y params originals Hvalid Hlen rbs i
                               Hrbs Hi)).
  apply EncodeOneDataBlock_closed; try assumption.
  now apply (length_chunk _ (Z.to_nat r)).
Qed.

End EncoderMore.

(** X25.  [Encode] overwrites its output: for a valid parameter set and
    originals of [block_bytes] bytes, the result does not depend on what
    the [recovery_count * block_bytes] bytes of [recoveryBlocks] held. *)
Theorem Encode_overwrites (X Y : Z -> byte) (params : EncoderParams)
        (originals : list DataBlock) (recoveryBlocks other : list byte) :
  valid_params params ->
  length originals = Z.to_nat (OriginalCount params) ->
  (forall O, In O originals ->
             length (Block O) = Z.to_nat (BlockBytes params)) ->
  length recoveryBlocks
  = (Z.to_nat (RecoveryCount params) * Z.to_nat (BlockBytes params))%nat ->
  length other = length recoveryBlocks ->
  Encode X Y params originals recoveryBlocks
  = Encode X Y params originals other.
Proof.
  intros Hvalid Hlen Hblocks Hrbs Hother.
  pose proof (Hblocks_at params originals Hlen Hblocks) as Hat.
  unfold Encode. rewrite (proj1 (valid_params_ok params) Hvalid).
  cbn [negb]. f_equal. f_equal.
  - rewrite !flat_map_concat_map. f_equal. apply map_ext_in.
    intros i Hi. apply in_seq in Hi.
    rewrite !(EncodeOneDataBlock_closed X Y params Hvalid originals)
      by (try assumption; apply (length_chunk _ (Z.to_nat (RecoveryCount params)));
          lia).
    reflexivity.
  - rewrite !skipn_all2 by lia. reflexivity.
Qed.

Lemma Encode_overwrites_witness :
  Encode example_X example_Y example_params example_originals (repeat x00 8)
  = Encode example_X example_Y example_params example_originals
           (repeat xff 8).
Proof.
  apply (Encode_overwrites example_X example_Y example_params
           example_originals (repeat x00 8) (repeat xff 8)).
  - exact example_valid.
  - reflexivity.
  - exact example_lengths.
  - reflexivity.
  - reflexivity.
Defined.

(** X26.  [Encode] is linear: when every block of a third set of originals
    is the [gf256_add_mem] of the blocks of two others, each of its
    recovery blocks is the [gf256_add_mem] of their recovery blocks. *)
Theorem Encode_linear (X Y : Z -> byte) (params : EncoderParams)
        (A B C : list DataBlock) (recoveryBlocks : list byte) (i : nat) :
  valid_params params ->
  length A = Z.to_nat (OriginalCount params) ->
  length B = Z.to_nat (OriginalCount params) ->
  length C = Z.to_nat (OriginalCount params) ->
  (forall O, In O A -> length (Block O) = Z.to_nat (BlockBytes params)) ->
  (forall O, In O B -> length (Block O) = Z.to_nat (BlockBytes params)) ->
  (forall j, (j < Z.to_nat (OriginalCount params))%nat ->
             Block (block_at C j)
             = GF256.gf256_add_mem (Block (block_at A j))
                                   (Block (block_at B j))
                                   (BlockBytes params)) ->
  length recoveryBlocks
  = (Z.to_nat (RecoveryCount params) * Z.to_nat (BlockBytes params))%nat ->
  (i < Z.to_nat (RecoveryCount params))%nat ->
  chunk (Z.to_nat (BlockBytes params))
        (snd (Encode X Y params C recoveryBlocks)) i
  = GF256.gf256_add_mem
      (chunk (Z.to_nat (BlockBytes params))
             (snd (Encode X Y params A recoveryBlocks)) i)
      (chunk (Z.to_nat (BlockBytes params))
             (snd (Encode X Y params B recoveryBlocks)) i)
      (BlockBytes params).
Proof.
  intros Hvalid HA HB HC HbA HbB Hsum Hrbs Hi.
  pose proof (Hblocks_at params A HA HbA) as HatA.
  pose proof (Hblocks_at params B HB HbB) as HatB.
  assert (HatC : forall j, (j < Z.to_nat (OriginalCount params))%nat ->
                           length (Block (block_at C j))
                           = Z.to_nat (BlockBytes params)).
  { intros j Hj. rewrite (Hsum j Hj). unfold GF256.gf256_add_mem.
    rewrite length_mem_loop. now apply HatA. }
  rewrite !(Encode_chunk_closed X Y params Hvalid) by assumption.
  unfold GF256.gf256_add_mem. rewrite mem_loop_buffer.
  apply buffer_ext. intros p Hp. rewrite <- gsum_add.
  apply gsum_ext. intros j Hj. apply in_seq in Hj.
  assert (E : original_byte C j p
              = gadd (original_byte A j p) (original_byte B j p)).
  { unfold original_byte. rewrite (Hsum j) by lia.
    unfold GF256.gf256_add_mem. apply nth_mem_loop.
    - exact Hp.
    - rewrite HatA by lia. lia.
    - rewrite HatB by lia. lia. }
  rewrite E. ring.
Qed.

Lemma Encode_linear_witness :
  chunk (Z.to_nat 2)
        (snd (Encode example_X example_Y
                {| OriginalCount := 2; RecoveryCount := 2; BlockBytes := 2 |}
                [ {| Block := GF256.gf256_add_mem [x01; x02] [xa0; xb0] 2;
                     Index := x00 |};
                  {| Block := GF256.gf256_add_mem [x10; x20] [x0c; x0d] 2;
                     Index := x01 |} ]
                (repeat x00 4))) 1
  = GF256.gf256_add_mem
      (chunk (Z.to_nat 2)
             (snd (Encode example_X example_Y
                     {| OriginalCount := 2; RecoveryCount := 2;
                        BlockBytes := 2 |}
                     [ {| Block := [x01; x02]; Index := x00 |};
                       {| Block := [x10; x20]; Index := x01 |} ]
                     (repeat x00 4))) 1)
      (chunk (Z.to_nat 2)
             (snd (Encode example_X example_Y
                     {| OriginalCount := 2; RecoveryCount := 2;
                        BlockBytes := 2 |}
                     [ {| Block := [xa0; xb0]; Index := x00 |};
                       {| Block := [x0c; x0d]; Index := x01 |} ]
                     (repeat x00 4))) 1)
      2.
Proof.
  apply (Encode_linear example_X example_Y
           {| OriginalCount := 2; RecoveryCount := 2; BlockBytes := 2 |}
           [ {| Block := [x01; x02]; Index := x00 |};
             {| Block := [x10; x20]; Index := x01 |} ]
           [ {| Block := [xa0; xb0]; Index := x00 |};
             {| Block := [x0c; x0d]; Index := x01 |} ]
           [ {| Block := GF256.gf256_add_mem [x01; x02] [xa0; xb0] 2;
                Index := x00 |};
             {| Block := GF256.gf256_add_mem [x10; x20] [x0c; x0d] 2;
                Index := x01 |} ]
           (repeat x00 4) 1).
  - unfold valid_params. simpl. lia.
  - reflexivity.
  - reflexivity.
  - reflexivity.
  - intros O [<- | [<- | []]]; reflexivity.
  - intros O [<- | [<- | []]]; reflexivity.
  - intros [|[|j]] Hj; [reflexivity | reflexivity | simpl in Hj; lia].
  - reflexivity.
  - simpl. lia.
Defined.

(** ** Decoding twice *)

(** With every original index present there is nothing to do. *)
Lemma Decode_all_present (X Y : Z -> byte) (params : EncoderParams)
      (blocks : list DataBlock) :
  valid_params params ->
  Z.of_nat (length blocks) = OriginalCount params ->
  incl (zrange (Z.to_nat (OriginalCount params))) (map block_index blocks) ->
  Decode X Y params blocks = (Ok, blocks).
Proof.
  intros Hvalid Hlen Hincl.
  assert (Hle : (length (map block_index blocks)
                 <= length (zrange (Z.to_nat (OriginalCount params))))%nat)
    by (rewrite length_map, length_zrange; lia).
  pose proof (NoDup_incl_NoDup (NoDup_zrange _) Hle Hincl) as Hnd.
  pose proof (NoDup_length_incl (NoDup_zrange _) Hle Hincl) as Hsub.
  assert (Hinit : fst (Initialize params blocks) = true).
  { apply Initialize_true_iff. split; [exact Hlen|]. split; [|exact Hnd].
    intros b Hb. specialize (Hsub (block_index b) (in_map _ _ _ Hb)).
    apply in_zrange in Hsub. destruct Hvalid as (_ & Hr & _). lia. }
  assert (HE : erasures params blocks = []).
  { unfold erasures. apply filter_none. intros j Hj.
    apply negb_false_iff, existsb_eqb_In, Hincl, Hj. }
  unfold Decode.
  rewrite (proj1 (valid_params_ok params) Hvalid). cbn [negb].
  rewrite Initialize_eq, Hinit. cbn [negb ErasuresIndices].
  now rewrite HE.
Qed.

(** X29.  Decoding is idempotent: whenever [Decode] succeeds, on any
    array and with any points, a second [Decode] of the resulting array
    succeeds and changes nothing. *)
Theorem Decode_idempotent (X Y : Z -> byte) (params : EncoderParams)
        (blocks : list DataBlock) :
  fst (Decode X Y params blocks) = Ok ->
  Decode X Y params (snd (Decode X Y params blocks))
  = (Ok, snd (Decode X Y params blocks)).
Proof.
  intros Hok.
  destruct (Decode_ok_shape X Y params blocks Hok)
    as (Hvalid & Hcount & Hnd & Hm & Hlen & Hframe & Hidx).
  apply Decode_all_present.
  - exact Hvalid.
  - now rewrite Hlen.
  - intros j Hj. apply in_zrange in Hj.
    destruct (in_dec Z.eq_dec j (map block_index blocks)) as [Hin|Hout].
    + apply in_map_iff in Hin. destruct Hin as (b & Hb & Hin).
      apply In_block_at in Hin. destruct Hin as (p & Hp & <-).
      rewrite <- Hb, <- Hframe.
      * apply in_map, block_at_In. now rewrite Hlen.
      * intros Hrp. apply in_recovery_positions in Hrp. lia.
    + assert (HinE : In j (erasures params blocks))
        by (apply in_erasures; split; [lia | assumption]).
      destruct (In_nth _ _ 0 HinE) as (i & Hi & Hnth).
      assert (Hi' : (i < length (recovery_positions params blocks))%nat)
        by lia.
      assert (Hp : In (nth i (recovery_positions params blocks) 0%nat)
                      (recovery_positions params blocks))
        by now apply nth_In.
      apply in_recovery_positions in Hp.
      replace j
        with (block_index
                (block_at (snd (Decode X Y params blocks))
                          (nth i (recovery_positions params blocks) 0%nat))).
      * apply in_map, block_at_In. rewrite Hlen. apply Hp.
      * unfold block_index. rewrite (Hidx i Hi'), Hnth.
        apply Z_of_byte_of_Z. destruct Hvalid as (Hk & _). lia.
Qed.

Lemma Decode_idempotent_witness :
  Decode example_X example_Y example_params
         (snd (Decode example_X example_Y example_params example_received))
  = (Ok, snd (Decode example_X example_Y example_params example_received)).
Proof.
  apply (Decode_idempotent example_X example_Y example_params
           example_received).
  rewrite (Decode_stripe example_X example_Y example_params
             example_originals (repeat x00 8) example_received
             example_valid example_points eq_refl example_lengths eq_refl
             eq_refl example_distinct example_stripe).
  reflexivity.
Defined.
